(** * Audio-over-UDP pipeline: decoder, frame accumulator, resampler,
      recorder and playback double buffer

    A shallow embedding of [code/sRtin.js], [code/UDPdown.js] and
    [code/writetobuf.js], followed by the properties of the written
    specification that were checked against it.

    Conventions.
    - A JavaScript number is an IEEE-754 binary64 value, represented by
      [spec_float] in canonical form for precision 53; arithmetic and
      comparisons on it are those of [SpecFloat].  Two places compute with
      exact rationals instead and leave the rounding of each double
      operation out: [downsampleAudio] of [sRtin.js] and the sample
      arithmetic of [writetobuf.js].
    - Array indices, lengths and [Int16Array] elements are integers ([Z]).
    - Module-level [let]/[var] bindings of a script are the fields of that
      script's state record; every function takes the state and returns the
      new one.
    - [Max.post]/[post] output is a list of [post] values, oldest first. *)

From Stdlib Require Import ZArith QArith Qround Qabs Lia Strings.Byte SpecFloat.
From Stdlib Require Strings.String Strings.Ascii.
From stdpp Require Import base option list.

Local Open Scope Z_scope.

(* ===================================================================== *)
(** * Part I: the embedding                                               *)
(* ===================================================================== *)

(** ** Console output of the three scripts *)

Inductive post : Type :=
  | ErrorReadingFloat (i : Z)     (* "Error reading float value at index i: ..." *)
  | NoAudioData                   (* "No audio data to save." *)
  | RecordingStarted              (* "Recording started." *)
  | AlreadyRecording              (* "Already recording." *)
  | NotRecording                  (* "Not currently recording." *)
  | RecordingStoppedAndSaved      (* "Recording stopped and saved." *)
  | FileSaved                     (* "Audio file ... saved successfully." *)
  | ErrorSavingFile               (* "Error saving audio file: ..." *)
  | BufferNotInitialized          (* "Active buffer not initialized or is empty." *)
  | BufferTooSmall                (* "Active buffer is too small for the incoming data. ..." *)
  | InactiveCleared               (* "Inactive buffer cleared after delay." *)
  | SwitchedTo (first : bool)     (* "Switched to UDPbuf." / "Switched to UDPbuf2." *)
  | AppliedFadeOut.               (* "Applied fade out to active buffer." *)

(** ** JavaScript numbers and the few built-ins the scripts call *)

Module JS.

Definition number : Type := spec_float.

Definition prec : Z := 53.
Definition emax : Z := 1024.

(** The number denoted by an integer literal. *)
Definition of_Z (z : Z) : number := binary_normalize prec emax z 0 false.

Definition mul (x y : number) : number := SFmul prec emax x y.
Definition sub (x y : number) : number := SFsub prec emax x y.
Definition div (x y : number) : number := SFdiv prec emax x y.

(** [x < y] and [x > y]; both are false when an operand is NaN. *)
Definition lt (x y : number) : bool := SFltb x y.
Definition gt (x y : number) : bool := SFltb y x.

Definition Math_abs (x : number) : number := SFabs x.

Definition isFinite (x : number) : bool :=
  match x with
  | S754_zero _ | S754_finite _ _ _ => true
  | S754_infinity _ | S754_nan => false
  end.

(** [Math.round]: the integer nearest to [x], ties towards +infinity,
    that is [floor (x + 1/2)].  A finite [x] with a non-negative exponent
    is already an integer. *)
Definition Math_round (x : number) : number :=
  match x with
  | S754_finite s m e =>
      if 0 <=? e then x
      else of_Z (Z.shiftr (2 * cond_Zopp s (Z.pos m) + 2 ^ (- e)) (1 - e))
  | _ => x
  end.

(** [Math.min] and [Math.max] of two numbers: NaN if either is NaN. *)
Definition Math_min (x y : number) : number :=
  match SFcompare x y with
  | None => S754_nan
  | Some Gt => y
  | Some _ => x
  end.

Definition Math_max (x y : number) : number :=
  match SFcompare x y with
  | None => S754_nan
  | Some Lt => y
  | Some _ => x
  end.

(** Storing a number into an [Int16Array] element: NaN and the infinities
    become 0, anything else is truncated towards zero and wrapped into
    [-32768, 32767]. *)
Definition wrap16 (z : Z) : Z := (z + 32768) mod 65536 - 32768.

Definition ToInt16 (x : number) : Z :=
  match x with
  | S754_finite s m e =>
      let t := if 0 <=? e then Z.pos m * 2 ^ e else Z.pos m / 2 ^ (- e) in
      wrap16 (cond_Zopp s t)
  | _ => 0
  end.

End JS.

(** ** Node's [Buffer.readFloatBE] *)

Module NodeBuffer.

(** The value of the binary32 bit pattern [w], as a number. *)
Definition binary32_decode (w : Z) : JS.number :=
  let s := Z.testbit w 31 in
  let e := Z.land (Z.shiftr w 23) 255 in
  let m := Z.land w (2 ^ 23 - 1) in
  if e =? 255 then (if m =? 0 then S754_infinity s else S754_nan)
  else if e =? 0 then binary_normalize JS.prec JS.emax (cond_Zopp s m) (-149) s
  else binary_normalize JS.prec JS.emax (cond_Zopp s (m + 2 ^ 23)) (e - 150) s.

Definition be32 (b0 b1 b2 b3 : byte) : Z :=
  Z.of_N (Byte.to_N b0) * 2 ^ 24 + Z.of_N (Byte.to_N b1) * 2 ^ 16
  + Z.of_N (Byte.to_N b2) * 2 ^ 8 + Z.of_N (Byte.to_N b3).

(** [buf.readFloatBE(offset)]; [None] stands for the [RangeError] thrown
    when fewer than four bytes are available at [offset]. *)
Definition readFloatBE (buf : list byte) (offset : Z) : option JS.number :=
  if 0 <=? offset then
    match take 4 (drop (Z.to_nat offset) buf) with
    | [b0; b1; b2; b3] => Some (binary32_decode (be32 b0 b1 b2 b3))
    | _ => None
    end
  else None.

End NodeBuffer.

(** ** The matrix decoder

    [convertMatrixToFloat32] of [sRtin.js] (lines 172-193) and of
    [UDPdown.js] (lines 101-126) run the same loop and differ in the
    magnitude bound only (10 and 1e+7). *)

Module Matrix.

Definition skipCount : Z := 131 * 4.

Definition len (matrixData : list byte) : Z := Z.of_nat (length matrixData).

(** [for (let i = ...; i < matrixData.length - 3; i += 4) { ... }], started
    at [i] with [floatData] collected so far.  The result is the final
    [floatData] and what the [catch] branch posted.  [fuel] bounds the
    number of iterations. *)
Fixpoint floatLoop (limit : JS.number) (matrixData : list byte)
    (fuel : nat) (i : Z) (floatData : list JS.number)
    : list JS.number * list post :=
  match fuel with
  | O => (floatData, [])
  | S fuel' =>
      if i <? len matrixData - 3 then
        if i <? skipCount then
          floatLoop limit matrixData fuel' (i + 4) floatData   (* continue *)
        else
          match NodeBuffer.readFloatBE matrixData i with
          | Some value =>
              if JS.lt (JS.Math_abs value) limit
              then floatLoop limit matrixData fuel' (i + 4) (floatData ++ [value])
              else floatLoop limit matrixData fuel' (i + 4) floatData
          | None => (floatData, [ErrorReadingFloat i])          (* break *)
          end
      else (floatData, [])
  end.

(** The loop from [i = 0] with an empty [floatData]; one unit of fuel per
    payload byte is more than the loop can use. *)
Definition decode (limit : JS.number) (matrixData : list byte)
    : list JS.number * list post :=
  floatLoop limit matrixData (S (length matrixData)) 0 [].

(** Notions used to state the decoder's properties. *)

(** The number of whole 4-byte groups after the header (none when the
    payload is shorter than the header). *)
Definition groups (matrixData : list byte) : nat :=
  Z.to_nat ((len matrixData - skipCount) / 4).

(** Every whole 4-byte group after the header holds a finite value of
    magnitude below [limit]. *)
Definition all_groups_valid (limit : JS.number) (matrixData : list byte) : Prop :=
  forall (k : Z) (v : JS.number),
    0 <= k ->
    NodeBuffer.readFloatBE matrixData (skipCount + 4 * k) = Some v ->
    JS.isFinite v = true /\ JS.lt (JS.Math_abs v) limit = true.

(** The value of the group at [offset]. *)
Definition valueAt (matrixData : list byte) (offset : Z) : JS.number :=
  default S754_nan (NodeBuffer.readFloatBE matrixData offset).

(** The values of the groups at [start], [start + 4], ... in payload
    order, where [start] is [i] or the end of the header, whichever comes
    later. *)
Definition groupsFrom (matrixData : list byte) (i : Z) : list JS.number :=
  let start := Z.max i skipCount in
  map (fun k => valueAt matrixData (start + 4 * k))
      (seqZ 0 ((len matrixData - start) / 4)).

End Matrix.

(** ** Float to 16-bit PCM

    The expression
    [Math.max(-32768, Math.min(32767, Math.round(x * 32767)))] stored into
    an [Int16Array] element, as written in [convertFloat32ToInt16] of
    [sRtin.js] (line 198) and in [saveAudioFile] of [UDPdown.js]
    (line 175). *)

Module PCM.

Definition int16_of_float (x : JS.number) : Z :=
  JS.ToInt16
    (JS.Math_max (JS.of_Z (-32768))
       (JS.Math_min (JS.of_Z 32767)
          (JS.Math_round (JS.mul x (JS.of_Z 32767))))).

End PCM.

(** ** [code/sRtin.js]: decode, reframe, resample, recognise, record *)

Module SRtin.

Definition INPUT_SAMPLE_RATE : Z := 44100.
Definition TARGET_SAMPLE_RATE : Z := 16000.

(** Outcome of the WAV write attempted by [saveAudioFile]: whether the
    [try] block ran to its end or an exception reached [catch]. *)
Inductive outcome : Type := Written | Threw.

(** The script's module-level bindings.  [recognized] lists the arrays
    handed to [rec.acceptWaveform], oldest first; the transcripts the
    recognizer answers with are outside the model.  [saved] lists the
    sample arrays of the WAV files written. *)
Record state : Type := mkState {
  isRecording : bool;
  recordingAudio : list Z;
  audioBuffer : list Z;
  recognized : list (list Z);
  saved : list (list Z);
  posts : list post
}.

Definition initial : state := mkState false [] [] [] [] [].

Definition add_posts (ps : list post) (st : state) : state :=
  mkState (isRecording st) (recordingAudio st) (audioBuffer st)
          (recognized st) (saved st) (posts st ++ ps).

Definition set_recordingAudio (r : list Z) (st : state) : state :=
  mkState (isRecording st) r (audioBuffer st) (recognized st) (saved st) (posts st).

Definition set_audioBuffer (b : list Z) (st : state) : state :=
  mkState (isRecording st) (recordingAudio st) b (recognized st) (saved st) (posts st).

Definition set_isRecording (b : bool) (st : state) : state :=
  mkState b (recordingAudio st) (audioBuffer st) (recognized st) (saved st) (posts st).

(** Lines 172-193. *)
Definition convertMatrixToFloat32 (matrixData : list byte)
    : list JS.number * list post :=
  Matrix.decode (JS.of_Z 10) matrixData.

(** Lines 195-201. *)
Definition convertFloat32ToInt16 (float32Array : list JS.number) : list Z :=
  map PCM.int16_of_float float32Array.

(** [Math.round] of an exact rational. *)
Definition Qround (x : Q) : Z := Qfloor (x + (1 # 2))%Q.

(** [audioData[index]] for an index inside the array. *)
Definition elem (audioData : list Z) (index : Z) : Z :=
  default 0 (audioData !! Z.to_nat index).

(** [audioData[index]] stored into an [Int16Array]; an index outside the
    array reads [undefined], which is stored as 0. *)
Definition at16 (audioData : list Z) (index : Z) : Z :=
  if 0 <=? index then JS.wrap16 (elem audioData index) else 0.

(** Lines 243-261.  The source computes [sampleRateRatio], [position],
    [fraction] and the interpolated value in binary64; here they are
    exact rationals, so the rounding error of each double operation is
    left out.  One output element per [i], in index order. *)
Definition sampleRateRatio (fromSampleRate toSampleRate : Z) : Q :=
  (inject_Z fromSampleRate / inject_Z toSampleRate)%Q.

Definition newLength (audioData : list Z) (fromSampleRate toSampleRate : Z) : Z :=
  Qround (inject_Z (Z.of_nat (length audioData))
          / sampleRateRatio fromSampleRate toSampleRate)%Q.

Definition downsampleAt (audioData : list Z) (ratio : Q) (i : Z) : Z :=
  let position := (inject_Z i * ratio)%Q in
  let index := Qfloor position in
  let fraction := (position - inject_Z index)%Q in
  if index + 1 <? Z.of_nat (length audioData) then
    JS.wrap16
      (Qround (inject_Z (elem audioData index) * (1 - fraction)
               + inject_Z (elem audioData (index + 1)) * fraction)%Q)
  else at16 audioData index.

Definition downsampleAudio (audioData : list Z) (fromSampleRate toSampleRate : Z)
    : list Z :=
  map (downsampleAt audioData (sampleRateRatio fromSampleRate toSampleRate))
      (seqZ 0 (newLength audioData fromSampleRate toSampleRate)).

(** Lines 327-354, as far as the audio goes: the array is handed to the
    recognizer. *)
Definition processAudioWithVosk (audioData : list Z) (st : state) : state :=
  mkState (isRecording st) (recordingAudio st) (audioBuffer st)
          (recognized st ++ [audioData]) (saved st) (posts st).

(** Lines 120-131: the [while] loop of the message handler. *)
Fixpoint drain (fuel : nat) (st : state) : state :=
  match fuel with
  | O => st
  | S fuel' =>
      if TARGET_SAMPLE_RATE <=? Z.of_nat (length (audioBuffer st)) then
        let chunk := take (Z.to_nat TARGET_SAMPLE_RATE) (audioBuffer st) in
        let st := set_audioBuffer (drop (Z.to_nat TARGET_SAMPLE_RATE) (audioBuffer st)) st in
        let downsampledData := downsampleAudio chunk INPUT_SAMPLE_RATE TARGET_SAMPLE_RATE in
        let st := if isRecording st
                  then set_recordingAudio (recordingAudio st ++ downsampledData) st
                  else st in
        drain fuel' (processAudioWithVosk downsampledData st)
      else st
  end.

(** Lines 117-131: what the handler does with the converted samples.
    The loop removes [TARGET_SAMPLE_RATE] samples per iteration, so the
    length of the accumulator is enough fuel. *)
Definition push (int16Data : list Z) (st : state) : state :=
  let st := set_audioBuffer (audioBuffer st ++ int16Data) st in
  drain (length (audioBuffer st)) st.

(** Lines 113-132: [server.on('message', ...)]. *)
Definition onMessage (data : list byte) (st : state) : state :=
  let '(floatData, errors) := convertMatrixToFloat32 data in
  let st := add_posts errors st in
  if Z.of_nat (length floatData) =? 0 then st
  else push (convertFloat32ToInt16 floatData) st.

(** Notions used to state the framing properties: the frame size as a
    list length, the [k]-th frame of a sample stream, all whole frames
    of a stream, and a sequence of pushes. *)
Definition frameSize : nat := Z.to_nat TARGET_SAMPLE_RATE.

Definition frame (k : nat) (stream : list Z) : list Z :=
  take frameSize (drop (k * frameSize) stream).





(** Lines 356-364. *)
Definition startRecording (st : state) : state :=
  if negb (isRecording st)
  then add_posts [RecordingStarted] (set_recordingAudio [] (set_isRecording true st))
  else add_posts [AlreadyRecording] st.

(** Lines 383-422.  An exception anywhere in the [try] block is caught
    and posted; the function then returns normally. *)
Definition saveAudioFile (audioData : list Z) (io : outcome) (st : state) : state :=
  match io with
  | Written =>
      mkState (isRecording st) (recordingAudio st) (audioBuffer st) (recognized st)
              (saved st ++ [map JS.wrap16 audioData]) (posts st ++ [FileSaved])
  | Threw => add_posts [ErrorSavingFile] st
  end.

(** Lines 366-381, run to completion ([await] included). *)
Definition stopRecording (io : outcome) (st : state) : state :=
  if isRecording st then
    let st := set_isRecording false st in
    if Z.of_nat (length (recordingAudio st)) =? 0 then add_posts [NoAudioData] st
    else
      let st := saveAudioFile (recordingAudio st) io st in
      let st := set_recordingAudio [] st in
      add_posts [RecordingStoppedAndSaved] st
  else add_posts [NotRecording] st.

End SRtin.

(** ** [code/UDPdown.js]: decode, record, diagnostic dump *)

Module UDPdown.

Inductive outcome : Type := Written | Threw.

(** The script's module-level bindings.  [float_data_txt] is the content
    of the diagnostic file, one entry per line ([None] is an empty line);
    [saved] lists the PCM sample arrays of the WAV files written. *)
Record state : Type := mkState {
  chunkCounter : Z;
  recordingAudio : list JS.number;
  lastValue : option JS.number;
  lastIndex : option Z;
  float_data_txt : list (option JS.number);
  saved : list (list Z);
  posts : list post
}.

Definition initial : state := mkState 0 [] None None [] [] [].

Definition add_posts (ps : list post) (st : state) : state :=
  mkState (chunkCounter st) (recordingAudio st) (lastValue st) (lastIndex st)
          (float_data_txt st) (saved st) (posts st ++ ps).

Definition set_recordingAudio (r : list JS.number) (st : state) : state :=
  mkState (chunkCounter st) r (lastValue st) (lastIndex st)
          (float_data_txt st) (saved st) (posts st).

Definition set_last (v : JS.number) (i : Z) (st : state) : state :=
  mkState (chunkCounter st) (recordingAudio st) (Some v) (Some i)
          (float_data_txt st) (saved st) (posts st).

(** The literals [1e+7], [1e+20] and [0.01]. *)
Definition lit_1e7 : JS.number := JS.of_Z (10 ^ 7).
Definition lit_1e20 : JS.number := JS.of_Z (10 ^ 20).
Definition lit_0_01 : JS.number := JS.div (JS.of_Z 1) (JS.of_Z 100).

(** Lines 101-149.  The local [indexCounter] is only read by commented-out
    code and is left out.  The body of [if (difference > 0.01)] holds
    comments only. *)
Definition convertMatrixToFloat32 (matrixData : list byte) (st : state)
    : list JS.number * state :=
  let '(floatData, errors) := Matrix.decode lit_1e7 matrixData in
  let st := add_posts errors st in
  let st :=
    match lastValue st, floatData with
    | Some lastV, currentFirstValue :: _ =>
        let difference := JS.Math_abs (JS.sub lastV currentFirstValue) in
        if JS.gt difference lit_0_01 then st else st
    | _, _ => st
    end in
  let st :=
    match last floatData with
    | Some lastFloatValue =>
        if JS.lt (JS.Math_abs lastFloatValue) lit_1e20
        then set_last lastFloatValue (Z.of_nat (length floatData) - 1) st
        else st
    | None => st
    end in
  (floatData, st).

(** Lines 151-155: [floatData.join('\n') + '\n'] appended to the file. *)
Definition writeFloatDataToFile (floatData : list JS.number) (st : state) : state :=
  let output := match floatData with [] => [None] | _ => map Some floatData end in
  mkState (chunkCounter st) (recordingAudio st) (lastValue st) (lastIndex st)
          (float_data_txt st ++ output) (saved st) (posts st).

Definition incr_chunkCounter (st : state) : state :=
  mkState (chunkCounter st + 1) (recordingAudio st) (lastValue st) (lastIndex st)
          (float_data_txt st) (saved st) (posts st).

(** Lines 68-89: [server.on('message', ...)]. *)
Definition onMessage (data : list byte) (st : state) : state :=
  let '(floatData, st) := convertMatrixToFloat32 data st in
  if Z.of_nat (length floatData) =? 0 then st
  else
    let st := set_recordingAudio (recordingAudio st ++ floatData) st in
    let st := writeFloatDataToFile floatData st in
    incr_chunkCounter st.

(** Lines 157-193.  On success the PCM conversion of the samples is
    written and the file is handed to ffmpeg, whose later messages are
    outside the model; an exception in the [try] block is caught and
    posted, and the function returns normally. *)
Definition saveAudioFile (audioData : list JS.number) (io : outcome) (st : state)
    : state :=
  match io with
  | Written =>
      mkState (chunkCounter st) (recordingAudio st) (lastValue st) (lastIndex st)
              (float_data_txt st)
              (saved st ++ [map PCM.int16_of_float audioData])
              (posts st ++ [FileSaved])
  | Threw => add_posts [ErrorSavingFile] st
  end.

(** Lines 207-210. *)
Definition startRecording (st : state) : state :=
  add_posts [RecordingStarted] (set_recordingAudio [] st).

(** Lines 212-221, run to completion ([await] included). *)
Definition stopRecording (io : outcome) (st : state) : state :=
  if Z.of_nat (length (recordingAudio st)) =? 0 then add_posts [NoAudioData] st
  else
    let st := saveAudioFile (recordingAudio st) io st in
    let st := set_recordingAudio [] st in
    add_posts [RecordingStoppedAndSaved] st.

End UDPdown.

(** ** [code/writetobuf.js]: the playback double buffer

    The script runs inside Max's [js] object.  [Buffer], [Task] and [post]
    belong to the host; they are modelled as follows.
    - A [Buffer] refers to a [buffer~] with [framecount] frames and
      [channelcount] channels (channels count from 1, frames from 0).
      [poke] inside that range replaces one sample.  What the host does
      with a [poke] outside the range is not fixed here: the stored samples
      are left alone and the request is appended to [rejected].  The
      message [clear] zeroes every sample.
    - [new Task(f, this).schedule(d)] runs [f] once, [d] milliseconds
      later.  [tasks] holds the due times of the scheduled runs of
      [clearInactiveBuffer], oldest first, and [now] is the scheduler's
      clock in milliseconds.
    - Sample arithmetic is exact (rationals); the rounding of each double
      operation is left out.
    The bindings [projectSampleRate], [currentSampleRate] and [chunkSize]
    are never read and are left out. *)

Module WriteToBuf.

Record Buffer : Type := mkBuffer {
  framecount : Z;
  channelcount : Z;
  samples : Z -> Z -> Q;                 (* channel, frame *)
  rejected : list (Z * Z * Q)            (* channel, frame, value *)
}.

Definition in_range (b : Buffer) (channel frame : Z) : bool :=
  (1 <=? channel) && (channel <=? channelcount b)
  && (0 <=? frame) && (frame <? framecount b).

Definition peek (b : Buffer) (channel frame : Z) : Q := samples b channel frame.

Definition poke (b : Buffer) (channel frame : Z) (v : Q) : Buffer :=
  if in_range b channel frame then
    mkBuffer (framecount b) (channelcount b)
             (fun c f => if (c =? channel) && (f =? frame) then v else samples b c f)
             (rejected b)
  else
    mkBuffer (framecount b) (channelcount b) (samples b)
             (rejected b ++ [(channel, frame, v)]).

Definition clear (b : Buffer) : Buffer :=
  mkBuffer (framecount b) (channelcount b) (fun _ _ => 0%Q) (rejected b).

(** A silent [buffer~] of the given size. *)
Definition silent (frames channels : Z) : Buffer :=
  mkBuffer frames channels (fun _ _ => 0%Q) [].

(** The two [Buffer] objects; [activeBuffer] and [inactiveBuffer] are
    references to them. *)
Inductive ref : Type := UDPbuf | UDPbuf2.

Record state : Type := mkState {
  buffer1 : Buffer;
  buffer2 : Buffer;
  activeBuffer : ref;
  inactiveBuffer : ref;
  clipStart1 : Z;
  switchDelay : Z;
  fadeLength : Z;
  tasks : list Z;
  now : Z;
  posts : list post
}.

(** The state after the script's top-level statements (lines 38-47), for
    two given [buffer~] objects. *)
Definition initial (b1 b2 : Buffer) : state :=
  mkState b1 b2 UDPbuf UDPbuf2 0 20 441 [] 0 [].

Definition deref (st : state) (r : ref) : Buffer :=
  match r with UDPbuf => buffer1 st | UDPbuf2 => buffer2 st end.

Definition assign (r : ref) (b : Buffer) (st : state) : state :=
  match r with
  | UDPbuf =>
      mkState b (buffer2 st) (activeBuffer st) (inactiveBuffer st) (clipStart1 st)
              (switchDelay st) (fadeLength st) (tasks st) (now st) (posts st)
  | UDPbuf2 =>
      mkState (buffer1 st) b (activeBuffer st) (inactiveBuffer st) (clipStart1 st)
              (switchDelay st) (fadeLength st) (tasks st) (now st) (posts st)
  end.

Definition add_posts (ps : list post) (st : state) : state :=
  mkState (buffer1 st) (buffer2 st) (activeBuffer st) (inactiveBuffer st)
          (clipStart1 st) (switchDelay st) (fadeLength st) (tasks st) (now st)
          (posts st ++ ps).

Definition set_clipStart1 (c : Z) (st : state) : state :=
  mkState (buffer1 st) (buffer2 st) (activeBuffer st) (inactiveBuffer st)
          c (switchDelay st) (fadeLength st) (tasks st) (now st) (posts st).

Definition set_tasks (ts : list Z) (st : state) : state :=
  mkState (buffer1 st) (buffer2 st) (activeBuffer st) (inactiveBuffer st)
          (clipStart1 st) (switchDelay st) (fadeLength st) ts (now st) (posts st).

Definition set_now (t : Z) (st : state) : state :=
  mkState (buffer1 st) (buffer2 st) (activeBuffer st) (inactiveBuffer st)
          (clipStart1 st) (switchDelay st) (fadeLength st) (tasks st) t (posts st).

(** Lines 100-102: [activeBuffer.poke(1, clipStart1 + i, audioData[i])]
    for [i = 0, 1, ...], over the samples still to be written. *)
Fixpoint pokeChunk (b : Buffer) (start : Z) (audioData : list Q) : Buffer :=
  match audioData with
  | [] => b
  | x :: rest => pokeChunk (poke b 1 start x) (start + 1) rest
  end.

(** Lines 86-110.  [activeBuffer] always refers to one of the two [Buffer]
    objects, so [!activeBuffer] is false. *)
Definition writeAudioChunk (audioData : list Q) (st : state) : state :=
  if framecount (deref st (activeBuffer st)) =? 0 then
    add_posts [BufferNotInitialized] st
  else
    let numSamples := Z.of_nat (length audioData) in
    if framecount (deref st (activeBuffer st)) <? numSamples then
      add_posts [BufferTooSmall] st
    else
      let st := assign (activeBuffer st)
                       (pokeChunk (deref st (activeBuffer st)) (clipStart1 st) audioData)
                       st in
      let st := set_clipStart1 (clipStart1 st + numSamples) st in
      if framecount (deref st (activeBuffer st)) <=? clipStart1 st
      then set_clipStart1 0 st
      else st.

(** A sequence of [writeAudioChunk] calls, first chunk first. *)
Definition writeAll (chunks : list (list Q)) (st : state) : state :=
  foldl (fun st audioData => writeAudioChunk audioData st) st chunks.

(** Line 141. *)
Definition fadeOutFactor (fadeLength i : Z) : Q :=
  (inject_Z (fadeLength - i) / inject_Z fadeLength)%Q.

(** Lines 140-145: one iteration of the inner loop. *)
Definition fadeStep (fadeLength bufferLength channel : Z) (b : Buffer) (i : Z)
    : Buffer :=
  let sample := peek b channel (bufferLength - fadeLength + i) in
  poke b channel (bufferLength - fadeLength + i)
       (sample * fadeOutFactor fadeLength i)%Q.

(** Lines 135-148. *)
Definition applyFadeOut (st : state) : state :=
  let b := deref st (activeBuffer st) in
  let numChannels := channelcount b in
  let bufferLength := framecount b in
  let b' :=
    foldl (fun b channel =>
             foldl (fadeStep (fadeLength st) bufferLength channel) b
                   (seqZ 0 (fadeLength st)))
          b (seqZ 1 numChannels) in
  add_posts [AppliedFadeOut] (assign (activeBuffer st) b' st).

(** Lines 127-133. *)
Definition switchBuffer (st : state) : state :=
  let tempBuffer := activeBuffer st in
  let st :=
    mkState (buffer1 st) (buffer2 st) (inactiveBuffer st) tempBuffer
            (clipStart1 st) (switchDelay st) (fadeLength st) (tasks st) (now st)
            (posts st) in
  add_posts [SwitchedTo (match activeBuffer st with UDPbuf => true | UDPbuf2 => false end)]
            st.

(** Lines 121-125. *)
Definition clearInactiveBuffer (st : state) : state :=
  let st := assign (inactiveBuffer st) (clear (deref st (inactiveBuffer st))) st in
  let st := set_clipStart1 0 st in
  add_posts [InactiveCleared] st.

(** Lines 112-119. *)
Definition clearBuffer (st : state) : state :=
  let st := applyFadeOut st in
  let st := switchBuffer st in
  set_tasks (tasks st ++ [now st + switchDelay st]) st.

(** The scheduler: [dt] milliseconds pass; every scheduled task that has
    come due by then runs once, in the order of scheduling, and is
    removed. *)
Definition elapse (dt : Z) (st : state) : state :=
  let t := now st + dt in
  let due := filter (fun d => d <= t) (tasks st) in
  let waiting := filter (fun d => ~ d <= t) (tasks st) in
  foldl (fun s _ => clearInactiveBuffer s) (set_tasks waiting (set_now t st)) due.

End WriteToBuf.

(** ** The three scripts side by side

    The scripts do not share variables; a datagram reaches one of the two
    UDP handlers and changes that script's state only. *)

Module Pipeline.

Record state : Type := mkState {
  sRtin : SRtin.state;
  udpDown : UDPdown.state;
  writetobuf : WriteToBuf.state
}.

(** The three scripts just loaded, with two silent [buffer~] objects of
    [frames] mono frames each. *)
Definition initial (frames : Z) : state :=
  mkState SRtin.initial UDPdown.initial
          (WriteToBuf.initial (WriteToBuf.silent frames 1) (WriteToBuf.silent frames 1)).

(** The two scripts that own a UDP socket. *)
Inductive script : Type := SRtinJs | UDPdownJs.

(** A datagram on port 7778 is handled by [sRtin.js], one on port 7777 by
    [UDPdown.js]. *)
Definition onMessage (s : script) (data : list byte) (st : state) : state :=
  match s with
  | SRtinJs => mkState (SRtin.onMessage data (sRtin st)) (udpDown st) (writetobuf st)
  | UDPdownJs => mkState (sRtin st) (UDPdown.onMessage data (udpDown st)) (writetobuf st)
  end.

(** The first statement of either handler,
    [const floatData = convertMatrixToFloat32(data)]: the chunk returned
    and the state it leaves. *)
Definition decodeStep (s : script) (data : list byte) (st : state)
    : list JS.number * state :=
  match s with
  | SRtinJs =>
      let '(floatData, errors) := SRtin.convertMatrixToFloat32 data in
      (floatData, mkState (SRtin.add_posts errors (sRtin st)) (udpDown st) (writetobuf st))
  | UDPdownJs =>
      let '(floatData, u) := UDPdown.convertMatrixToFloat32 data (udpDown st) in
      (floatData, mkState (sRtin st) u (writetobuf st))
  end.

(** The magnitude bound of either decoder. *)
Definition limit (s : script) : JS.number :=
  match s with SRtinJs => JS.of_Z 10 | UDPdownJs => UDPdown.lit_1e7 end.

(** What a script has posted so far. *)
Definition posted (s : script) (st : state) : list post :=
  match s with
  | SRtinJs => SRtin.posts (sRtin st)
  | UDPdownJs => UDPdown.posts (udpDown st)
  end.

End Pipeline.

(** ** Runs of datagrams and further notions used in Part II *)

Module Runs.

(** The test both decoders apply to a value read from the payload. *)
Definition accepted (limit : JS.number) (value : JS.number) : bool :=
  JS.lt (JS.Math_abs value) limit.

(** The chunk the decoder of script [s] returns for a payload. *)
Definition chunkOf (s : Pipeline.script) (data : list byte) : list JS.number :=
  (Matrix.decode (Pipeline.limit s) data).1.

(** The handler of [UDPdown.js] run on a sequence of datagrams, first
    datagram first. *)
Definition onMessages_UDPdown (payloads : list (list byte)) (st : UDPdown.state)
    : UDPdown.state :=
  foldl (fun st data => UDPdown.onMessage data st) st payloads.



End Runs.

(** ** Messages to [writetobuf.js]

    Every global function of a [js] script can be called by sending its
    name as a message; [Elapse dt] stands for [dt] milliseconds passing in
    the scheduler. *)

Module BufferRuns.

Inductive event : Type :=
  | WriteAudioChunk (audioData : list Q)
  | ClearBuffer
  | ClearInactiveBuffer
  | SwitchBuffer
  | ApplyFadeOut
  | Elapse (dt : Z).

Definition step (e : event) (st : WriteToBuf.state) : WriteToBuf.state :=
  match e with
  | WriteAudioChunk audioData => WriteToBuf.writeAudioChunk audioData st
  | ClearBuffer => WriteToBuf.clearBuffer st
  | ClearInactiveBuffer => WriteToBuf.clearInactiveBuffer st
  | SwitchBuffer => WriteToBuf.switchBuffer st
  | ApplyFadeOut => WriteToBuf.applyFadeOut st
  | Elapse dt => WriteToBuf.elapse dt st
  end.

Definition run (events : list event) (st : WriteToBuf.state) : WriteToBuf.state :=
  foldl (fun st e => step e st) st events.

(** Two buffers of the same size and channel count. *)
Definition same_shape (b b' : WriteToBuf.Buffer) : Prop :=
  WriteToBuf.framecount b' = WriteToBuf.framecount b
  /\ WriteToBuf.channelcount b' = WriteToBuf.channelcount b.

(** The variables [writeAudioChunk] reads and writes: the two buffers, the
    active reference and the cursor. *)
Definition written (st : WriteToBuf.state)
    : WriteToBuf.Buffer * WriteToBuf.Buffer * WriteToBuf.ref * Z :=
  (WriteToBuf.buffer1 st, WriteToBuf.buffer2 st, WriteToBuf.activeBuffer st,
   WriteToBuf.clipStart1 st).

(** What a message is shown to keep: the two roles stay two different
    buffers, no buffer changes its size, and the two settings stay. *)
Definition preserved (st st' : WriteToBuf.state) : Prop :=
  (WriteToBuf.activeBuffer st <> WriteToBuf.inactiveBuffer st ->
   WriteToBuf.activeBuffer st' <> WriteToBuf.inactiveBuffer st')
  /\ same_shape (WriteToBuf.buffer1 st) (WriteToBuf.buffer1 st')
  /\ same_shape (WriteToBuf.buffer2 st) (WriteToBuf.buffer2 st')
  /\ WriteToBuf.switchDelay st' = WriteToBuf.switchDelay st
  /\ WriteToBuf.fadeLength st' = WriteToBuf.fadeLength st.

End BufferRuns.

(** ** [code/sRtin.js]: the transcript side

    What [processAudioWithVosk] does with the recognizer's answers.  The
    recognizer and the [words-to-numbers] package are outside the model:
    an answer of the recognizer is an input, and [wordsToNumbers] is a
    function the definitions take as an argument.
    - A string is the list of its UTF-16 code units.
    - A value that is a string, a number or [undefined] is an
      [option text]: [None] is [undefined], [Some t] a value whose string
      form is [t].
    - The regular expressions of the script are regular-expression
      literals in which every [b] follows [\\]: an escaped backslash, then
      the letter b.  Each is therefore a fixed sequence of characters, or
      a choice between six of them, and is matched as such. *)

Module Recognition.

Import Stdlib.Strings.String.StringSyntax.

Definition text : Type := list N.

(** The code units of an ASCII literal. *)
Definition lit (s : String.string) : text :=
  map Ascii.N_of_ascii (String.list_ascii_of_string s).

Arguments lit s%_string_scope.

(** [s] begins with the characters [pat]. *)
Fixpoint starts_with (pat s : text) : bool :=
  match pat, s with
  | [], _ => true
  | p :: pat', c :: s' => (p =? c)%N && starts_with pat' s'
  | _ :: _, [] => false
  end.

(** [/pat/.test(s)] for a literal [pat]: a match at some position. *)
Fixpoint contains (pat s : text) : bool :=
  starts_with pat s
  || match s with
     | [] => false
     | _ :: s' => contains pat s'
     end.

(** [s.replace(/pat/, '')] for a literal [pat]: the leftmost match is
    removed. *)
Fixpoint remove_first (pat s : text) : text :=
  if starts_with pat s then drop (length pat) s
  else match s with
       | [] => []
       | c :: s' => c :: remove_first pat s'
       end.

(** White space and line terminators, as [String.prototype.trim] sees
    them. *)
Definition is_space (c : N) : bool :=
  existsb (N.eqb c)
          [9; 10; 11; 12; 13; 32; 160; 5760; 8232; 8233; 8239; 8287; 12288; 65279]%N
  || ((8192 <=? c)%N && (c <=? 8202)%N).

Fixpoint trimStart (s : text) : text :=
  match s with
  | [] => []
  | c :: s' => if is_space c then trimStart s' else s
  end.

Definition trim (s : text) : text := rev (trimStart (rev (trimStart s))).

(** The [i] flag: a character of the subject matches a lower-case
    letter of the pattern when it is that letter or its upper-case form. *)
Definition fold_case (c : N) : N :=
  if (65 <=? c)%N && (c <=? 90)%N then (c + 32)%N else c.

(** Line 347: [/\\b(play|stop|pause|resume|continue|both)\\b/i.test(s)]. *)
Definition is_command (s : text) : bool :=
  existsb (fun word => contains (lit "\b" ++ word ++ lit "\b") (map fold_case s))
          [lit "play"; lit "stop"; lit "pause"; lit "resume"; lit "continue"; lit "both"].

(** The string a value is converted to where one is needed. *)
Definition to_string (v : option text) : text :=
  match v with
  | Some t => t
  | None => lit "undefined"
  end.

(** What the script sends out: the two [Max.post] lines with the value
    interpolated into them, and [Max.outlet]. *)
Inductive emitted : Type :=
  | FinalResult (v : option text)      (* Max.post(`Final Result: ${v}`) *)
  | PartialResult (v : option text)    (* Max.post(`Partial Result: ${v}`) *)
  | Outlet (v : option text).          (* Max.outlet(v) *)

(** What [rec.acceptWaveform] returned, with the text of [rec.result()]
    or of [rec.partialResult()]; the empty text also stands for a missing
    one. *)
Inductive answer : Type :=
  | Final (text : text)
  | Partial (partial : text).

Record state : Type := mkState {
  lastPartialResult : text;
  sent : list emitted
}.

Definition initial : state := mkState [] [].

Definition emit (es : list emitted) (st : state) : state :=
  mkState (lastPartialResult st) (sent st ++ es).

Definition set_lastPartialResult (t : text) (st : state) : state :=
  mkState t (sent st).

Definition truthy (t : text) : bool := negb (Nat.eqb (length t) 0).

Section Package.

(** [wordsToNumbers(s, {})]; every call of the script passes [{}] as the
    options. *)
Variable wordsToNumbers : text -> option text.

(** Lines 263-291. *)
Definition specialFormatting (inputString : text) : option text :=
  let formattedString := inputString in
  let isNegative := starts_with (lit "minus\b") inputString in
  let formattedString :=
    if isNegative then trim (remove_first (lit "\bminus\b") formattedString)
    else formattedString in
  let isPercent := contains (lit "\bpercent\b") formattedString in
  let formattedString :=
    if isPercent then trim (remove_first (lit "\bpercent\b") formattedString)
    else formattedString in
  match wordsToNumbers formattedString with
  | Some number =>
      let number := if isNegative then lit "-" ++ number else number in
      let number := if isPercent then number ++ lit "%" else number in
      Some number
  | None => None
  end.

(** Lines 327-354, as far as the text goes. *)
Definition processAudioWithVosk (a : answer) (st : state) : state :=
  match a with
  | Final text =>
      if truthy text then
        let formattedText := specialFormatting text in
        let st := emit [FinalResult formattedText; Outlet formattedText] st in
        if truthy (lastPartialResult st) then
          let formattedPartial := specialFormatting (lastPartialResult st) in
          let st := emit [Outlet formattedPartial] st in
          set_lastPartialResult [] st
        else st
      else st
  | Partial partial =>
      if truthy partial then
        let formattedPartial := specialFormatting partial in
        let st := emit [PartialResult formattedPartial] st in
        if is_command (to_string formattedPartial)
        then emit [Outlet formattedPartial] st
        else set_lastPartialResult partial st
      else st
  end.

(** The answers to a sequence of frames, first one first. *)
Definition processAll (answers : list answer) (st : state) : state :=
  foldl (fun st a => processAudioWithVosk a st) st answers.

End Package.

(** The values sent to the outlet, oldest first. *)
Definition outlet (st : state) : list (option text) :=
  omap (fun e => match e with Outlet v => Some v | _ => None end) (sent st).

End Recognition.

(* ===================================================================== *)
(** * Part II: properties                                                 *)
(* ===================================================================== *)

(** ** The matrix decoder *)

Section DecoderFacts.

Import Matrix NodeBuffer.

Local Ltac Zify.zify_post_hook ::= Z.to_euclidean_division_equations.

Variable limit : JS.number.
Variable data : list byte.

(** Four bytes are available at every offset the loop reads from. *)
Lemma readFloatBE_is_Some (i : Z) :
  0 <= i -> i + 3 < len data -> is_Some (readFloatBE data i).
Proof.
  intros Hi Hlen. unfold readFloatBE.
  destruct (Z.leb_spec 0 i) as [_|]; [|lia].
  assert (Hl : length (take 4 (drop (Z.to_nat i) data)) = 4%nat).
  { rewrite length_take, length_drop. unfold len in Hlen. lia. }
  destruct (take 4 (drop (Z.to_nat i) data)) as [|b0 [|b1 [|b2 [|b3 [|b4 r]]]]];
    simpl in Hl; try discriminate.
  eexists; reflexivity.
Qed.

(** The [catch] branch of the loop is never entered. *)
Lemma floatLoop_no_error (fuel : nat) :
  forall i acc, 0 <= i -> (floatLoop limit data fuel i acc).2 = [].
Proof.
  induction fuel as [|fuel IH]; intros i acc Hi; simpl; [reflexivity|].
  destruct (Z.ltb_spec i (len data - 3)) as [Hlt|]; [|reflexivity].
  destruct (i <? skipCount); [apply IH; lia|].
  destruct (readFloatBE_is_Some i) as [v ->]; [lia..|].
  destruct (JS.lt _ _); apply IH; lia.
Qed.

(** Fewer than four bytes at [i]: the read throws. *)
Lemma readFloatBE_None (i : Z) :
  len data < i + 4 -> readFloatBE data i = None.
Proof.
  intros Hlen. unfold readFloatBE.
  destruct (Z.leb_spec 0 i) as [Hi|]; [|reflexivity].
  assert (Hl : (length (take 4 (drop (Z.to_nat i) data)) < 4)%nat).
  { rewrite length_take, length_drop. unfold len in Hlen. lia. }
  destruct (take 4 (drop (Z.to_nat i) data)) as [|b0 [|b1 [|b2 [|b3 r]]]];
    simpl in Hl; try reflexivity; lia.
Qed.

(** The loop needs at most one round per four bytes left: any two
    amounts of fuel that cover them give the same result, so the fuel
    [decode] supplies never runs out. *)
Lemma floatLoop_fuel (fuel1 : nat) :
  forall fuel2 i acc,
    len data - i - 3 <= 4 * Z.of_nat fuel1 ->
    len data - i - 3 <= 4 * Z.of_nat fuel2 ->
    floatLoop limit data fuel1 i acc = floatLoop limit data fuel2 i acc.
Proof.
  induction fuel1 as [|fuel1 IH]; intros [|fuel2] i acc H1 H2; cbn [floatLoop];
    try reflexivity.
  - destruct (Z.ltb_spec i (len data - 3)); [lia|reflexivity].
  - destruct (Z.ltb_spec i (len data - 3)); [lia|reflexivity].
  - destruct (Z.ltb_spec i (len data - 3)); [|reflexivity].
    destruct (i <? skipCount); [apply IH; lia|].
    destruct (readFloatBE data i); [|reflexivity].
    destruct (JS.lt _ _); apply IH; lia.
Qed.

Lemma decode_no_error : (decode limit data).2 = [].
Proof. apply floatLoop_no_error. lia. Qed.

Lemma groupsFrom_done (i : Z) :
  0 <= i -> len data - 3 <= i -> groupsFrom data i = [].
Proof.
  intros Hi Hdone. unfold groupsFrom.
  rewrite seqZ_nil; [reflexivity|]. lia.
Qed.

Lemma groupsFrom_header (i q : Z) :
  i = 4 * q -> i < skipCount -> groupsFrom data (i + 4) = groupsFrom data i.
Proof.
  intros -> Hlt. unfold groupsFrom, skipCount in *.
  replace (Z.max (4 * q + 4) (131 * 4)) with (131 * 4) by lia.
  replace (Z.max (4 * q) (131 * 4)) with (131 * 4) by lia.
  reflexivity.
Qed.

Lemma groupsFrom_step (i : Z) :
  skipCount <= i -> i < len data - 3 ->
  groupsFrom data i = valueAt data i :: groupsFrom data (i + 4).
Proof.
  intros Hs Hlt. unfold groupsFrom.
  rewrite !Z.max_l by lia.
  rewrite seqZ_cons by lia. simpl. f_equal.
  - f_equal. lia.
  - replace (Z.succ 0) with (1 + 0) by lia.
    rewrite <- fmap_add_seqZ, <- list_fmap_compose.
    replace (Z.pred ((len data - i) / 4)) with ((len data - (i + 4)) / 4) by lia.
    apply list_fmap_ext. intros _ k _. simpl. f_equal. lia.
Qed.

(** With every group valid, the loop appends the groups in payload order
    and posts nothing, provided the fuel covers the remaining bytes. *)
Lemma floatLoop_all_valid (Hvalid : all_groups_valid limit data) (fuel : nat) :
  forall i q acc,
    0 <= i -> i = 4 * q -> len data - i - 3 <= 4 * Z.of_nat fuel ->
    floatLoop limit data fuel i acc = (acc ++ groupsFrom data i, []).
Proof.
  induction fuel as [|fuel IH]; intros i q acc Hi Hq Hfuel; simpl.
  - rewrite groupsFrom_done by lia. by rewrite app_nil_r.
  - destruct (Z.ltb_spec i (len data - 3)) as [Hlt|Hge].
    + destruct (Z.ltb_spec i skipCount) as [Hhdr|Hbody].
      * rewrite (IH (i + 4) (q + 1)) by lia.
        by rewrite (groupsFrom_header i q).
      * destruct (readFloatBE_is_Some i) as [v Hv]; [lia..|].
        rewrite Hv.
        destruct (Hvalid ((i - skipCount) / 4) v) as [_ Hacc].
        { unfold skipCount in *. lia. }
        { rewrite <- Hv. f_equal. unfold skipCount in *. lia. }
        rewrite Hacc, (IH (i + 4) (q + 1)) by lia.
        rewrite (groupsFrom_step i) by lia.
        unfold valueAt. rewrite Hv. simpl.
        by rewrite <- app_assoc.
    + rewrite groupsFrom_done by lia. by rewrite app_nil_r.
Qed.

Lemma decode_all_valid (Hvalid : all_groups_valid limit data) :
  decode limit data = (groupsFrom data 0, []).
Proof.
  unfold decode.
  rewrite (floatLoop_all_valid Hvalid _ 0 0 []); [reflexivity|unfold len; lia..].
Qed.

Lemma length_groupsFrom_0 : length (groupsFrom data 0) = groups data.
Proof.
  unfold groupsFrom, groups. rewrite length_map, length_seqZ.
  unfold len, skipCount. lia.
Qed.

Lemma lookup_groupsFrom_0 (k : nat) :
  (k < groups data)%nat ->
  groupsFrom data 0 !! k = readFloatBE data (skipCount + 4 * Z.of_nat k).
Proof.
  intros Hk. unfold groupsFrom, groups in *.
  rewrite list_lookup_fmap, lookup_seqZ_lt.
  2:{ unfold len, skipCount in *. lia. }
  simpl. unfold valueAt.
  replace (Z.max 0 skipCount) with skipCount by (unfold skipCount; lia).
  replace (0 + Z.of_nat k) with (Z.of_nat k) by lia.
  destruct (readFloatBE_is_Some (skipCount + 4 * Z.of_nat k)) as [v ->];
    [unfold len, skipCount in *; lia..|reflexivity].
Qed.

End DecoderFacts.

(** ** The decode step of the two handlers *)

Section DecodeStepFacts.

Import Pipeline.

Lemma posts_add_nil_sRtin (st : SRtin.state) : SRtin.add_posts [] st = st.
Proof. destruct st. unfold SRtin.add_posts. simpl. by rewrite app_nil_r. Qed.

Lemma posts_add_nil_UDPdown (st : UDPdown.state) : UDPdown.add_posts [] st = st.
Proof. destruct st. unfold UDPdown.add_posts. simpl. by rewrite app_nil_r. Qed.

(** The chunk either decoder returns is the first component of the shared
    loop's result at the script's bound. *)
Lemma decodeStep_chunk (s : script) (data : list byte) (st : state) :
  (decodeStep s data st).1 = (Matrix.decode (limit s) data).1.
Proof.
  destruct s; unfold decodeStep, limit.
  - unfold SRtin.convertMatrixToFloat32.
    by destruct (Matrix.decode (JS.of_Z 10) data).
  - unfold UDPdown.convertMatrixToFloat32.
    by destruct (Matrix.decode UDPdown.lit_1e7 data).
Qed.

(** The continuity heuristic and the update of [lastValue] leave the
    posts alone. *)
Lemma UDPdown_convert_posts (data : list byte) (st : UDPdown.state) :
  UDPdown.posts (UDPdown.convertMatrixToFloat32 data st).2
  = UDPdown.posts st ++ (Matrix.decode UDPdown.lit_1e7 data).2.
Proof.
  unfold UDPdown.convertMatrixToFloat32.
  destruct (Matrix.decode UDPdown.lit_1e7 data) as [fd errs].
  cbn [snd].
  set (st1 := UDPdown.add_posts errs st).
  set (st2 := match UDPdown.lastValue st1 with
              | Some lastV =>
                  match fd with
                  | [] => st1
                  | currentFirstValue :: _ =>
                      if JS.gt (JS.Math_abs (JS.sub lastV currentFirstValue))
                               UDPdown.lit_0_01
                      then st1 else st1
                  end
              | None => st1
              end).
  assert (Hst2 : st2 = st1).
  { subst st2. destruct (UDPdown.lastValue st1); [|reflexivity].
    destruct fd; [reflexivity|]. by destruct (JS.gt _ _). }
  rewrite Hst2.
  destruct (last fd); [|reflexivity].
  by destruct (JS.lt _ _).
Qed.

(** The decode step posts nothing. *)
Lemma decodeStep_posted (s : script) (data : list byte) (st : state) :
  posted s (decodeStep s data st).2 = posted s st.
Proof.
  destruct s; unfold decodeStep, posted.
  - unfold SRtin.convertMatrixToFloat32.
    pose proof (decode_no_error (JS.of_Z 10) data) as He.
    destruct (Matrix.decode (JS.of_Z 10) data) as [fd errs].
    cbn [snd sRtin] in *. subst errs. by rewrite posts_add_nil_sRtin.
  - pose proof (UDPdown_convert_posts data (udpDown st)) as Hp.
    rewrite decode_no_error, app_nil_r in Hp.
    destruct (UDPdown.convertMatrixToFloat32 data (udpDown st)) as [fd u].
    exact Hp.
Qed.

End DecodeStepFacts.

(** C1. For every payload in which every whole 4-byte group after the
    524-byte header decodes to a finite value of magnitude below the
    script's bound, the decoder of either script returns exactly
    floor((len - 524) / 4) samples (none for a payload shorter than the
    header), the k-th sample being the value of the k-th group in payload
    order; a trailing remainder of fewer than 4 bytes is dropped and no
    error is posted. *)
Theorem C1_decode_returns_every_group
    (s : Pipeline.script) (data : list byte) (st : Pipeline.state) :
  Matrix.all_groups_valid (Pipeline.limit s) data ->
  let chunk := (Pipeline.decodeStep s data st).1 in
  length chunk = Z.to_nat ((Matrix.len data - Matrix.skipCount) / 4)
  /\ (forall k : nat,
        (k < length chunk)%nat ->
        chunk !! k
        = NodeBuffer.readFloatBE data (Matrix.skipCount + 4 * Z.of_nat k))
  /\ Pipeline.posted s (Pipeline.decodeStep s data st).2 = Pipeline.posted s st.
Proof.
  intros Hvalid chunk. subst chunk.
  rewrite decodeStep_chunk, (decode_all_valid _ _ Hvalid). simpl.
  rewrite length_groupsFrom_0. split; [reflexivity|]. split.
  - intros k Hk. by apply lookup_groupsFrom_0.
  - apply decodeStep_posted.
Qed.

Lemma C1_decode_returns_every_group_witness :
  let data := replicate 524 x00 ++ [x3f; x80; x00; x00; xbf; x00; x00; x00; x01] in
  let st := Pipeline.initial 8 in
  let chunk := (Pipeline.decodeStep Pipeline.SRtinJs data st).1 in
  Matrix.all_groups_valid (Pipeline.limit Pipeline.SRtinJs) data
  /\ length chunk = 2%nat
  /\ (forall k : nat,
        (k < length chunk)%nat ->
        chunk !! k
        = NodeBuffer.readFloatBE data (Matrix.skipCount + 4 * Z.of_nat k))
  /\ Pipeline.posted Pipeline.SRtinJs (Pipeline.decodeStep Pipeline.SRtinJs data st).2
     = Pipeline.posted Pipeline.SRtinJs st.
Proof.
  intros data st chunk.
  assert (Hvalid : Matrix.all_groups_valid (Pipeline.limit Pipeline.SRtinJs) data).
  { intros k v Hk Hv.
    assert (Hcases : k = 0 \/ k = 1 \/ 2 <= k) by lia.
    destruct Hcases as [-> | [-> | Hbig]].
    - vm_compute in Hv. injection Hv as <-. split; reflexivity.
    - vm_compute in Hv. injection Hv as <-. split; reflexivity.
    - rewrite readFloatBE_None in Hv; [discriminate|].
      unfold Matrix.skipCount. change (Matrix.len data) with 533. lia. }
  split; [exact Hvalid|].
  exact (C1_decode_returns_every_group Pipeline.SRtinJs data st Hvalid).
Defined.

(** C9. The continuity heuristic of [UDPdown.js] is diagnostics only: the
    chunk returned for a payload does not depend on the carried
    [lastValue]/[lastIndex] (nor on anything else in the script's state), so
    the same payload decoded after two different histories of earlier
    payloads gives equal chunks. *)
Theorem C9_chunk_independent_of_history
    (data : list byte) (st1 st2 : UDPdown.state) (history1 history2 : list (list byte)) :
  (UDPdown.convertMatrixToFloat32 data st1).1
  = (UDPdown.convertMatrixToFloat32 data st2).1
  /\ (UDPdown.convertMatrixToFloat32 data
        (foldl (fun st p => (UDPdown.convertMatrixToFloat32 p st).2)
               UDPdown.initial history1)).1
     = (UDPdown.convertMatrixToFloat32 data
          (foldl (fun st p => (UDPdown.convertMatrixToFloat32 p st).2)
                 UDPdown.initial history2)).1.
Proof.
  assert (Hchunk : forall st,
             (UDPdown.convertMatrixToFloat32 data st).1
             = (Matrix.decode UDPdown.lit_1e7 data).1).
  { intros st. unfold UDPdown.convertMatrixToFloat32.
    by destruct (Matrix.decode UDPdown.lit_1e7 data). }
  by rewrite !Hchunk.
Qed.

(** ** A packet without valid samples *)

Lemma UDPdown_convert_empty (data : list byte) (st : UDPdown.state) :
  (UDPdown.convertMatrixToFloat32 data st).1 = [] ->
  UDPdown.convertMatrixToFloat32 data st = ([], st).
Proof.
  unfold UDPdown.convertMatrixToFloat32.
  pose proof (decode_no_error UDPdown.lit_1e7 data) as He.
  destruct (Matrix.decode UDPdown.lit_1e7 data) as [fd errs].
  cbn [fst snd] in *. intros ->. subst errs.
  rewrite posts_add_nil_UDPdown. cbn [last].
  by destruct (UDPdown.lastValue st).
Qed.

(** C10. When the decode of an incoming payload yields no valid sample,
    the handler of either script returns at once: the recording sequence,
    the chunk counter, the diagnostic file, the frame accumulator, what was
    handed to the recognizer and the playback buffers, indeed the whole
    state of the three scripts, stay as they were. *)
Theorem C10_empty_chunk_changes_nothing
    (s : Pipeline.script) (data : list byte) (st : Pipeline.state) :
  (Pipeline.decodeStep s data st).1 = [] ->
  Pipeline.onMessage s data st = st.
Proof.
  destruct st as [srt udp wtb]. destruct s; unfold Pipeline.decodeStep, Pipeline.onMessage;
    cbn [Pipeline.sRtin Pipeline.udpDown Pipeline.writetobuf].
  - unfold SRtin.onMessage, SRtin.convertMatrixToFloat32.
    pose proof (decode_no_error (JS.of_Z 10) data) as He.
    destruct (Matrix.decode (JS.of_Z 10) data) as [fd errs].
    cbn [fst snd] in *. intros ->. subst errs.
    by rewrite posts_add_nil_sRtin.
  - unfold UDPdown.onMessage. intros Hempty.
    rewrite UDPdown_convert_empty.
    + reflexivity.
    + by destruct (UDPdown.convertMatrixToFloat32 data udp).
Qed.

Lemma C10_empty_chunk_changes_nothing_witness :
  let data := replicate 524 x00 ++ [x7f; x80; x00; x00; x12] in
  let st := Pipeline.initial 8 in
  (Pipeline.decodeStep Pipeline.UDPdownJs data st).1 = []
  /\ Pipeline.onMessage Pipeline.UDPdownJs data st = st.
Proof.
  intros data st.
  assert (Hempty : (Pipeline.decodeStep Pipeline.UDPdownJs data st).1 = [])
    by (vm_compute; reflexivity).
  split; [exact Hempty|].
  exact (C10_empty_chunk_changes_nothing Pipeline.UDPdownJs data st Hempty).
Defined.

(** ** Stopping a recording *)




(** ** Reframing in [sRtin.js] *)

Section Framing.

Import SRtin.

















End Framing.




(** ** The resampler of [sRtin.js] *)

Section Resampler.

Import SRtin.

(** The rational expressions of [downsampleAudio] as integer quotients. *)
Lemma Qfloor_position (i fromRate toRate : Z) :
  0 < toRate ->
  Qfloor (inject_Z i * sampleRateRatio fromRate toRate) = (i * fromRate) / toRate.
Proof.
  intros Ht. destruct toRate as [|pt|pt]; try lia.
  unfold sampleRateRatio, Qdiv, Qinv, Qmult, inject_Z, Qfloor. cbn.
  f_equal. lia.
Qed.

Lemma newLength_eq (l : list Z) (fromRate toRate : Z) :
  0 < fromRate -> 0 < toRate ->
  newLength l fromRate toRate
  = (2 * Z.of_nat (length l) * toRate + fromRate) / (2 * fromRate).
Proof.
  intros Hf Ht. unfold newLength. generalize (Z.of_nat (length l)) as n. intros n.
  destruct toRate as [|pt|pt]; try lia. destruct fromRate as [|pf|pf]; try lia.
  unfold Qround, sampleRateRatio, Qdiv, Qinv, Qmult, Qplus, inject_Z, Qfloor.
  cbn [Qnum Qden]. rewrite Z.mul_1_r. cbn [Qnum Qden].
  f_equal; lia.
Qed.

Variables fromRate toRate : Z.
Hypothesis Hfrom : 0 < fromRate.
Hypothesis Hto : 0 < toRate.

(** No output position reaches the end of the input. *)
Lemma index_in_chunk (l : list Z) (i : Z) :
  0 <= i < newLength l fromRate toRate ->
  0 <= Qfloor (inject_Z i * sampleRateRatio fromRate toRate) < Z.of_nat (length l).
Proof.
  rewrite newLength_eq, Qfloor_position by done.
  set (n := Z.of_nat (length l)). intros [Hi Hlt].
  assert (Hn : i * fromRate < toRate * n).
  { assert (Hq : (i + 1) * (2 * fromRate) <= 2 * n * toRate + fromRate).
    { transitivity (2 * fromRate * ((2 * n * toRate + fromRate) / (2 * fromRate))).
      - nia.
      - apply Z.mul_div_le. lia. }
    nia. }
  split.
  - apply Z.div_pos; nia.
  - apply Z.div_lt_upper_bound; lia.
Qed.

Lemma lookup_downsampleAudio (l : list Z) (i : Z) :
  0 <= i < newLength l fromRate toRate ->
  downsampleAudio l fromRate toRate !! Z.to_nat i
  = Some (downsampleAt l (sampleRateRatio fromRate toRate) i).
Proof.
  intros Hi. unfold downsampleAudio.
  rewrite list_lookup_fmap, lookup_seqZ_lt by lia.
  cbn. do 2 f_equal. lia.
Qed.

Lemma Qround_inject (v : Z) : Qround (inject_Z v) = v.
Proof.
  unfold Qround, Qplus, inject_Z, Qfloor. cbn [Qnum Qden].
  rewrite Z.mul_1_r. change (Z.pos (1 * 2)) with 2.
  symmetry. apply (Z.div_unique _ _ _ 1); lia.
Qed.


Lemma wrap16_id (v : Z) : -32768 <= v <= 32767 -> JS.wrap16 v = v.
Proof. intros Hv. unfold JS.wrap16. rewrite Z.mod_small; lia. Qed.




Lemma length_downsampleAudio (l : list Z) :
  length (downsampleAudio l fromRate toRate) = Z.to_nat (newLength l fromRate toRate).
Proof. unfold downsampleAudio. by rewrite length_map, length_seqZ. Qed.


End Resampler.


(** The same at the rates the handler uses: 45 frames of 16000 samples
    resample to 45 * 5805 = 261225 samples, while
    round(45 * 16000 / 2.75625) is 261224. *)
Lemma resampled_length_of_45_frames :
  45 * SRtin.newLength (replicate SRtin.frameSize 0)
         SRtin.INPUT_SAMPLE_RATE SRtin.TARGET_SAMPLE_RATE = 261225
  /\ SRtin.Qround (inject_Z (45 * 16000)
                   / SRtin.sampleRateRatio SRtin.INPUT_SAMPLE_RATE SRtin.TARGET_SAMPLE_RATE)
     = 261224.
Proof.
  unfold SRtin.newLength. rewrite length_replicate. vm_compute. done.
Qed.






(** ** Writing into the playback buffer *)

Section Writing.

Import WriteToBuf.

Lemma framecount_poke (b : Buffer) (c f : Z) (v : Q) :
  framecount (poke b c f v) = framecount b.
Proof. unfold poke. by destruct (in_range b c f). Qed.

Lemma channelcount_poke (b : Buffer) (c f : Z) (v : Q) :
  channelcount (poke b c f v) = channelcount b.
Proof. unfold poke. by destruct (in_range b c f). Qed.

Lemma in_range_true (b : Buffer) (c f : Z) :
  1 <= c <= channelcount b -> 0 <= f < framecount b -> in_range b c f = true.
Proof.
  intros Hc Hf. unfold in_range.
  repeat (apply andb_true_intro; split); lia.
Qed.

(** A [poke] inside the buffer replaces exactly one sample. *)
Lemma samples_poke (b : Buffer) (c f : Z) (v : Q) (c' f' : Z) :
  1 <= c <= channelcount b -> 0 <= f < framecount b ->
  samples (poke b c f v) c' f'
  = if decide (c' = c /\ f' = f) then v else samples b c' f'.
Proof.
  intros Hc Hf. unfold poke. rewrite in_range_true by done. cbn [samples].
  destruct (Z.eqb_spec c' c), (Z.eqb_spec f' f), (decide (c' = c /\ f' = f));
    cbn [andb]; try reflexivity; tauto.
Qed.

Lemma rejected_poke_in (b : Buffer) (c f : Z) (v : Q) :
  1 <= c <= channelcount b -> 0 <= f < framecount b ->
  rejected (poke b c f v) = rejected b.
Proof. intros Hc Hf. unfold poke. by rewrite in_range_true. Qed.

Lemma framecount_pokeChunk (data : list Q) :
  forall b start, framecount (pokeChunk b start data) = framecount b.
Proof.
  induction data as [|x data IH]; intros b start; cbn [pokeChunk]; [done|].
  by rewrite IH, framecount_poke.
Qed.

Lemma channelcount_pokeChunk (data : list Q) :
  forall b start, channelcount (pokeChunk b start data) = channelcount b.
Proof.
  induction data as [|x data IH]; intros b start; cbn [pokeChunk]; [done|].
  by rewrite IH, channelcount_poke.
Qed.

(** A chunk that fits between [start] and the end of the buffer lands on
    consecutive frames of channel 1; nothing else changes. *)
Lemma pokeChunk_fits (data : list Q) :
  forall b start,
    1 <= channelcount b -> 0 <= start ->
    start + Z.of_nat (length data) <= framecount b ->
    rejected (pokeChunk b start data) = rejected b
    /\ (forall (i : nat) (x : Q),
          data !! i = Some x ->
          samples (pokeChunk b start data) 1 (start + Z.of_nat i) = x)
    /\ (forall c f,
          ~ (c = 1 /\ start <= f < start + Z.of_nat (length data)) ->
          samples (pokeChunk b start data) c f = samples b c f).
Proof.
  induction data as [|x data IH]; intros b start Hch Hs Hfit; cbn [pokeChunk].
  - repeat split. intros i y Hy. by rewrite lookup_nil in Hy.
  - cbn [length] in Hfit.
    destruct (IH (poke b 1 start x) (start + 1)) as (Hrej & Hin & Hout).
    { by rewrite channelcount_poke. } { lia. } { rewrite framecount_poke. lia. }
    split; [|split].
    + rewrite Hrej. apply rejected_poke_in; lia.
    + intros [|i] y Hy.
      * cbn in Hy. injection Hy as ->.
        rewrite Hout by lia. rewrite samples_poke by lia.
        destruct (decide _) as [_|Hn]; [done|]. exfalso. apply Hn. lia.
      * cbn in Hy. rewrite <- (Hin i y Hy). f_equal. lia.
    + intros c f Hcf. rewrite Hout by (cbn [length] in Hcf; lia).
      rewrite samples_poke by lia.
      destruct (decide _) as [He|_]; [|done].
      exfalso. apply Hcf. cbn [length]. lia.
Qed.

Lemma deref_assign (r : ref) (b : Buffer) (st : state) :
  deref (assign r b st) r = b.
Proof. by destruct r. Qed.

Lemma deref_assign_ne (r r' : ref) (b : Buffer) (st : state) :
  r' <> r -> deref (assign r b st) r' = deref st r'.
Proof. by destruct r, r'. Qed.

(** [assign] changes one buffer and no variable of the script. *)
Lemma assign_frame (r : ref) (b : Buffer) (st : state) :
  activeBuffer (assign r b st) = activeBuffer st
  /\ inactiveBuffer (assign r b st) = inactiveBuffer st
  /\ clipStart1 (assign r b st) = clipStart1 st
  /\ switchDelay (assign r b st) = switchDelay st
  /\ fadeLength (assign r b st) = fadeLength st
  /\ tasks (assign r b st) = tasks st
  /\ now (assign r b st) = now st
  /\ posts (assign r b st) = posts st.
Proof. by destruct r. Qed.

(** What one write does to the cursor; it never touches [activeBuffer] or
    the size of a buffer, and it posts only when it refuses the chunk. *)
Lemma writeAudioChunk_cursor (data : list Q) (st : state) :
  let cap := framecount (deref st (activeBuffer st)) in
  let n := Z.of_nat (length data) in
  activeBuffer (writeAudioChunk data st) = activeBuffer st
  /\ framecount (deref (writeAudioChunk data st) (activeBuffer st)) = cap
  /\ clipStart1 (writeAudioChunk data st)
     = (if decide (cap = 0 \/ cap < n) then clipStart1 st
        else if decide (cap <= clipStart1 st + n) then 0
        else clipStart1 st + n)
  /\ (n <= cap -> cap <> 0 -> posts (writeAudioChunk data st) = posts st).
Proof.
  intros cap n. unfold writeAudioChunk. fold cap n.
  destruct (Z.eqb_spec cap 0) as [H0|H0].
  { destruct (decide _) as [_|Hn]; [|exfalso; apply Hn; by left].
    repeat split; try done. }
  destruct (Z.ltb_spec cap n) as [Hbig|Hok].
  { destruct (decide _) as [_|Hn]; [|exfalso; apply Hn; by right].
    repeat split; try done. lia. }
  destruct (decide (cap = 0 \/ cap < n)) as [[?|?]|_]; [lia..|].
  set (st1 := assign _ _ st).
  set (st2 := set_clipStart1 (clipStart1 st1 + n) st1).
  destruct (assign_frame (activeBuffer st)
              (pokeChunk (deref st (activeBuffer st)) (clipStart1 st) data) st)
    as (Ha & _ & Hc & _ & _ & _ & _ & Hp).
  fold st1 in Ha, Hc, Hp.
  assert (Hact : activeBuffer st2 = activeBuffer st) by exact Ha.
  assert (Hcap : framecount (deref st2 (activeBuffer st)) = cap).
  { change (deref st2 (activeBuffer st)) with (deref st1 (activeBuffer st)).
    subst st1. rewrite deref_assign. apply framecount_pokeChunk. }
  assert (Hclip : clipStart1 st2 = clipStart1 st + n).
  { change (clipStart1 st2) with (clipStart1 st1 + n). by rewrite Hc. }
  assert (Hposts : posts st2 = posts st) by exact Hp.
  rewrite Hact, Hcap, Hclip.
  destruct (Z.leb_spec cap (clipStart1 st + n)), (decide (cap <= clipStart1 st + n));
    try lia; repeat split; done.
Qed.

Lemma writeAudioChunk_buffer (data : list Q) (st : state) :
  framecount (deref st (activeBuffer st)) <> 0 ->
  Z.of_nat (length data) <= framecount (deref st (activeBuffer st)) ->
  deref (writeAudioChunk data st) (activeBuffer st)
  = pokeChunk (deref st (activeBuffer st)) (clipStart1 st) data.
Proof.
  intros H0 Hn. unfold writeAudioChunk.
  destruct (Z.eqb_spec (framecount (deref st (activeBuffer st))) 0); [done|].
  destruct (Z.ltb_spec (framecount (deref st (activeBuffer st)))
                       (Z.of_nat (length data))); [lia|].
  match goal with
  | |- deref (if ?c then set_clipStart1 0 ?s else ?s) _ = _ =>
      transitivity (deref s (activeBuffer st)); [by destruct c|]
  end.
  cbn [set_clipStart1 deref buffer1 buffer2].
  change (deref (assign (activeBuffer st)
                   (pokeChunk (deref st (activeBuffer st)) (clipStart1 st) data) st)
                (activeBuffer st) = pokeChunk (deref st (activeBuffer st)) (clipStart1 st) data).
  apply deref_assign.
Qed.



End Writing.




(** ** Fading, switching and the deferred clear *)

Section Switching.

Import WriteToBuf.




Lemma deref_add_posts (ps : list post) (st : state) (r : ref) :
  deref (add_posts ps st) r = deref st r.
Proof. by destruct r. Qed.


(** [switchBuffer] and the scheduling leave both buffers as they are. *)
Lemma deref_clearBuffer (st : state) (r : ref) :
  deref (clearBuffer st) r = deref (applyFadeOut st) r.
Proof. by destruct r. Qed.

(** [applyFadeOut] changes no variable of the script and posts once. *)
Lemma applyFadeOut_frame (st : state) :
  activeBuffer (applyFadeOut st) = activeBuffer st
  /\ inactiveBuffer (applyFadeOut st) = inactiveBuffer st
  /\ clipStart1 (applyFadeOut st) = clipStart1 st
  /\ switchDelay (applyFadeOut st) = switchDelay st
  /\ tasks (applyFadeOut st) = tasks st
  /\ now (applyFadeOut st) = now st
  /\ posts (applyFadeOut st) = posts st ++ [AppliedFadeOut].
Proof.
  unfold applyFadeOut.
  match goal with
  | |- context [assign ?r ?b st] =>
      destruct (assign_frame r b st) as (Ha & Hi & Hc & Hd & _ & Ht & Hn & Hp)
  end.
  cbn [add_posts activeBuffer inactiveBuffer clipStart1 switchDelay tasks now posts].
  rewrite Ha, Hi, Hc, Hd, Ht, Hn, Hp. done.
Qed.

(** [clearBuffer] after its first statement: the swap, the post and the
    scheduling, read off the definition. *)
Lemma clearBuffer_after_fade (st : state) :
  activeBuffer (clearBuffer st) = inactiveBuffer (applyFadeOut st)
  /\ inactiveBuffer (clearBuffer st) = activeBuffer (applyFadeOut st)
  /\ clipStart1 (clearBuffer st) = clipStart1 (applyFadeOut st)
  /\ now (clearBuffer st) = now (applyFadeOut st)
  /\ switchDelay (clearBuffer st) = switchDelay (applyFadeOut st)
  /\ tasks (clearBuffer st)
     = tasks (applyFadeOut st)
       ++ [now (applyFadeOut st) + switchDelay (applyFadeOut st)]
  /\ posts (clearBuffer st)
     = posts (applyFadeOut st)
       ++ [SwitchedTo (match inactiveBuffer (applyFadeOut st) with
                       | UDPbuf => true
                       | UDPbuf2 => false
                       end)].
Proof. repeat split; reflexivity. Qed.




End Switching.

(** ** The deferred clear *)

Section DeferredClear.

Import WriteToBuf.

Lemma clearInactiveBuffer_spec (st : state) :
  activeBuffer (clearInactiveBuffer st) = activeBuffer st
  /\ inactiveBuffer (clearInactiveBuffer st) = inactiveBuffer st
  /\ tasks (clearInactiveBuffer st) = tasks st
  /\ now (clearInactiveBuffer st) = now st
  /\ clipStart1 (clearInactiveBuffer st) = 0
  /\ posts (clearInactiveBuffer st) = posts st ++ [InactiveCleared]
  /\ deref (clearInactiveBuffer st) (inactiveBuffer st)
     = clear (deref st (inactiveBuffer st)).
Proof.
  unfold clearInactiveBuffer.
  destruct (assign_frame (inactiveBuffer st) (clear (deref st (inactiveBuffer st))) st)
    as (Ha & Hi & _ & _ & _ & Ht & Hn & Hp).
  cbn [add_posts set_clipStart1 activeBuffer inactiveBuffer clipStart1 tasks now posts].
  rewrite Ha, Hi, Ht, Hn, Hp. repeat split.
  transitivity (deref (assign (inactiveBuffer st) (clear (deref st (inactiveBuffer st))) st)
                      (inactiveBuffer st)).
  - by destruct (inactiveBuffer st).
  - apply deref_assign.
Qed.

(** Running the due tasks one after the other. *)
Lemma run_due (due : list Z) :
  forall st,
    let st' := foldl (fun s _ => clearInactiveBuffer s) st due in
    activeBuffer st' = activeBuffer st
    /\ inactiveBuffer st' = inactiveBuffer st
    /\ tasks st' = tasks st
    /\ now st' = now st
    /\ posts st' = posts st ++ replicate (length due) InactiveCleared
    /\ (due <> [] ->
        clipStart1 st' = 0
        /\ forall c f, samples (deref st' (inactiveBuffer st)) c f = 0%Q).
Proof.
  induction due as [|d due IH]; intros st; cbv zeta.
  - cbn [foldl length replicate]. rewrite app_nil_r. repeat split; done.
  - cbn [foldl length replicate].
    destruct (clearInactiveBuffer_spec st) as (Ha & Hi & Ht & Hn & Hc & Hp & Hb).
    destruct (IH (clearInactiveBuffer st)) as (Ha' & Hi' & Ht' & Hn' & Hp' & Hd').
    rewrite Ha', Hi', Ht', Hn', Hp', Ha, Hi, Ht, Hn, Hp, <- app_assoc.
    repeat split; try done.
    + destruct due as [|d' due]; [exact Hc|]. by apply Hd'.
    + intros c f. destruct due as [|d' due].
      * cbn [foldl]. by rewrite Hb.
      * rewrite <- Hi. by apply Hd'.
Qed.

(** [dt] milliseconds pass: the due tasks run, the others wait. *)
Lemma elapse_spec (dt : Z) (st : state) :
  let due := filter (fun d => d <= now st + dt) (tasks st) in
  let st' := elapse dt st in
  tasks st' = filter (fun d => ~ d <= now st + dt) (tasks st)
  /\ posts st' = posts st ++ replicate (length due) InactiveCleared
  /\ activeBuffer st' = activeBuffer st
  /\ inactiveBuffer st' = inactiveBuffer st
  /\ (due <> [] ->
      clipStart1 st' = 0
      /\ forall c f, samples (deref st' (inactiveBuffer st)) c f = 0%Q).
Proof.
  intros due st'. subst st'. unfold elapse. fold due.
  match goal with
  | |- context [foldl _ ?s due] =>
      destruct (run_due due s) as (Ha & Hi & Ht & Hn & Hp & Hd)
  end.
  rewrite Ha, Hi, Ht, Hp. repeat split; try done; by apply Hd.
Qed.

End DeferredClear.



(** C6 as stated fails: a second switch 5 ms after the first leaves the
    first clear pending next to its own, and 20 ms after the first switch
    that superseded clear fires; it wipes the buffer made inactive by the
    second switch and resets the cursor, while the buffer the first switch
    had left inactive keeps its faded samples. *)
Lemma C6_superseded_clear_still_fires :
  let st0 := WriteToBuf.writeAudioChunk (replicate 450 8%Q)
               (WriteToBuf.initial (WriteToBuf.silent 450 1) (WriteToBuf.silent 450 1)) in
  let st1 := WriteToBuf.clearBuffer st0 in
  let st2 := WriteToBuf.clearBuffer (WriteToBuf.elapse 5 st1) in
  let st3 := WriteToBuf.elapse 15 st2 in
  WriteToBuf.tasks st1 = [20]
  /\ WriteToBuf.tasks st2 = [20; 25]
  /\ ~ (WriteToBuf.tasks st2 = [WriteToBuf.now st2 + WriteToBuf.switchDelay st2])
  /\ WriteToBuf.now st3 = 20
  /\ WriteToBuf.tasks st3 = [25]
  /\ WriteToBuf.posts st3 = WriteToBuf.posts st2 ++ [InactiveCleared]
  /\ WriteToBuf.inactiveBuffer st3 = WriteToBuf.UDPbuf2
  /\ WriteToBuf.samples (WriteToBuf.buffer1 st3) 1 0 = 8%Q.
Proof.
  intros st0 st1 st2 st3.
  repeat split; try (vm_compute; reflexivity).
  vm_compute. discriminate.
Qed.

(** C6, amended. A switch cancels nothing: [clearBuffer] keeps every
    clear that is still pending and schedules one more, [switchDelay]
    milliseconds ahead.  When time passes, every pending clear that has
    come due runs, whether or not a later switch has superseded it; the
    others stay pending.  A clear that runs wipes whichever buffer is
    inactive at that moment and sets the cursor to 0; it does not change
    which buffer is active. *)
Theorem C6_no_clear_is_cancelled (st : WriteToBuf.state) (dt : Z) :
  let due := filter (fun d => d <= WriteToBuf.now st + dt) (WriteToBuf.tasks st) in
  let st' := WriteToBuf.elapse dt st in
  WriteToBuf.tasks (WriteToBuf.clearBuffer st)
  = WriteToBuf.tasks st ++ [WriteToBuf.now st + WriteToBuf.switchDelay st]
  /\ WriteToBuf.tasks st'
     = filter (fun d => ~ d <= WriteToBuf.now st + dt) (WriteToBuf.tasks st)
  /\ WriteToBuf.posts st'
     = WriteToBuf.posts st ++ replicate (length due) InactiveCleared
  /\ WriteToBuf.activeBuffer st' = WriteToBuf.activeBuffer st
  /\ WriteToBuf.inactiveBuffer st' = WriteToBuf.inactiveBuffer st
  /\ (due <> [] ->
      WriteToBuf.clipStart1 st' = 0
      /\ forall c f,
           WriteToBuf.samples (WriteToBuf.deref st' (WriteToBuf.inactiveBuffer st)) c f
           = 0%Q).
Proof.
  intros due st'. split.
  - destruct (clearBuffer_after_fade st) as (_ & _ & _ & _ & _ & Ct & _).
    destruct (applyFadeOut_frame st) as (_ & _ & _ & Hd & Ht & Hn & _).
    by rewrite Ct, Ht, Hn, Hd.
  - apply elapse_spec.
Qed.


(* ===================================================================== *)
(** * Part III: further properties of the three scripts                   *)
(* ===================================================================== *)

From Stdlib Require Import Lqa.

(** ** The decoder on arbitrary payloads *)

Section DecoderAnyPayload.

Import Matrix NodeBuffer.

Variable limit : JS.number.
Variable data : list byte.

(** Whatever the payload holds, the loop keeps the accepted groups, in
    payload order, and skips the others one by one. *)
Lemma floatLoop_filter (fuel : nat) :
  forall i q acc,
    0 <= i -> i = 4 * q -> len data - i - 3 <= 4 * Z.of_nat fuel ->
    floatLoop limit data fuel i acc
    = (acc ++ List.filter (Runs.accepted limit) (groupsFrom data i), []).
Proof.
  induction fuel as [|fuel IH]; intros i q acc Hi Hq Hfuel; cbn [floatLoop].
  - rewrite groupsFrom_done by lia. by rewrite app_nil_r.
  - destruct (Z.ltb_spec i (len data - 3)) as [Hlt|Hge].
    + destruct (Z.ltb_spec i skipCount) as [Hhdr|Hbody].
      * rewrite (IH (i + 4) (q + 1)) by lia.
        by rewrite (groupsFrom_header data i q).
      * destruct (readFloatBE_is_Some data i) as [v Hv]; [lia..|].
        assert (Hval : valueAt data i = v) by (unfold valueAt; by rewrite Hv).
        rewrite Hv, (groupsFrom_step data i), Hval by lia.
        cbn [List.filter].
        change (Runs.accepted limit v) with (JS.lt (JS.Math_abs v) limit).
        destruct (JS.lt (JS.Math_abs v) limit);
          rewrite (IH (i + 4) (q + 1)) by lia; [|reflexivity].
        by rewrite <- app_assoc.
    + rewrite groupsFrom_done by lia. by rewrite app_nil_r.
Qed.

Lemma decode_filter :
  decode limit data = (List.filter (Runs.accepted limit) (groupsFrom data 0), []).
Proof.
  unfold decode.
  rewrite (floatLoop_filter _ 0 0 []); [reflexivity|unfold len; lia..].
Qed.

End DecoderAnyPayload.

Section DecoderExtras.

Import Matrix NodeBuffer.

Local Ltac Zify.zify_post_hook ::= Z.to_euclidean_division_equations.

Lemma decodeStep_chunkOf (s : Pipeline.script) (data : list byte) (st : Pipeline.state) :
  (Pipeline.decodeStep s data st).1 = Runs.chunkOf s data.
Proof. apply decodeStep_chunk. Qed.

Lemma chunkOf_filter (s : Pipeline.script) (data : list byte) :
  Runs.chunkOf s data
  = List.filter (Runs.accepted (Pipeline.limit s)) (groupsFrom data 0).
Proof. unfold Runs.chunkOf. by rewrite decode_filter. Qed.

(** A value that passes the magnitude test of either script is finite. *)
Lemma accepted_finite (s : Pipeline.script) (v : JS.number) :
  Runs.accepted (Pipeline.limit s) v = true -> JS.isFinite v = true.
Proof.
  destruct s, v as [z|z| |z m e]; try reflexivity;
    try destruct z; vm_compute; intros H; discriminate H.
Qed.

(** Reading inside the first of two concatenated blocks. *)
Lemma readFloatBE_app_l (a b : list byte) (i : Z) :
  0 <= i -> i + 4 <= len a -> readFloatBE (a ++ b) i = readFloatBE a i.
Proof.
  intros Hi Hlen. unfold readFloatBE, len in *.
  destruct (Z.leb_spec 0 i); [|lia].
  rewrite drop_app_le by lia.
  rewrite take_app_le; [reflexivity|]. rewrite length_drop. lia.
Qed.

(** Reading past the first of two concatenated blocks. *)
Lemma readFloatBE_app_r (a b : list byte) (i : Z) :
  0 <= i -> readFloatBE (a ++ b) (len a + i) = readFloatBE b i.
Proof.
  intros Hi. unfold readFloatBE, len.
  destruct (Z.leb_spec 0 i); [|lia].
  destruct (Z.leb_spec 0 (Z.of_nat (length a) + i)); [|lia].
  replace (Z.to_nat (Z.of_nat (length a) + i)) with (length a + Z.to_nat i)%nat by lia.
  by rewrite drop_app_add.
Qed.

Lemma groupsFrom_ext (d1 d2 : list byte) :
  len d1 = len d2 ->
  (forall k, 0 <= k -> skipCount + 4 * k + 4 <= len d1 ->
             readFloatBE d1 (skipCount + 4 * k) = readFloatBE d2 (skipCount + 4 * k)) ->
  groupsFrom d1 0 = groupsFrom d2 0.
Proof.
  intros Hlen Hval. unfold groupsFrom. rewrite <- Hlen.
  replace (Z.max 0 skipCount) with skipCount by (unfold skipCount; lia).
  apply map_ext_in. intros k Hk. apply list_elem_of_In, elem_of_seqZ in Hk.
  unfold valueAt. rewrite Hval; [reflexivity|lia|]. unfold skipCount in *. lia.
Qed.

Lemma group_in_payload (n k : Z) :
  0 <= k < (n - skipCount) / 4 -> skipCount + 4 * k + 4 <= n.
Proof. unfold skipCount. lia. Qed.

Lemma groups_with_tail (n t : Z) :
  (4 | n) -> 0 <= t < 4 -> (n + t - skipCount) / 4 = (n - skipCount) / 4.
Proof. intros [q ->] Ht. unfold skipCount. lia. Qed.

End DecoderExtras.

(** X1. For every payload, valid or not, the chunk either decoder returns
    is the sequence of whole 4-byte groups after the 524-byte header with
    the rejected ones (NaN, infinite, magnitude at or above the bound) left
    out one by one: decoding goes on past a rejected value and the accepted
    ones keep their payload order. *)
Theorem decoder_drops_rejected_values_only
    (s : Pipeline.script) (data : list byte) (st : Pipeline.state) :
  (Pipeline.decodeStep s data st).1
  = List.filter (Runs.accepted (Pipeline.limit s))
      (map (fun k => Matrix.valueAt data (Matrix.skipCount + 4 * k))
           (seqZ 0 ((Matrix.len data - Matrix.skipCount) / 4))).
Proof. rewrite decodeStep_chunkOf, chunkOf_filter. reflexivity. Qed.

(** X2. Every sample either decoder returns is finite and of magnitude
    below the script's bound, and a chunk never holds more than
    floor((len - 524) / 4) samples. *)
Theorem decoder_output_is_bounded
    (s : Pipeline.script) (data : list byte) (st : Pipeline.state) :
  let chunk := (Pipeline.decodeStep s data st).1 in
  Forall (fun v => JS.isFinite v = true
                   /\ JS.lt (JS.Math_abs v) (Pipeline.limit s) = true) chunk
  /\ (length chunk <= Z.to_nat ((Matrix.len data - Matrix.skipCount) / 4))%nat.
Proof.
  intros chunk. subst chunk. rewrite decodeStep_chunkOf, chunkOf_filter. split.
  - apply Forall_forall. intros v Hv.
    apply list_elem_of_In, filter_In in Hv as [_ Hacc].
    split; [by apply (accepted_finite s)|exact Hacc].
  - etransitivity; [apply filter_length_le|].
    by rewrite length_groupsFrom_0.
Qed.

(** X3. The first 524 bytes of a payload are never interpreted: two
    payloads with different headers and the same body decode to the same
    chunk. *)
Theorem decoder_ignores_header
    (s : Pipeline.script) (header1 header2 body : list byte) (st : Pipeline.state) :
  Matrix.len header1 = Matrix.skipCount ->
  Matrix.len header2 = Matrix.skipCount ->
  (Pipeline.decodeStep s (header1 ++ body) st).1
  = (Pipeline.decodeStep s (header2 ++ body) st).1.
Proof.
  intros H1 H2. rewrite !decodeStep_chunkOf, !chunkOf_filter. f_equal.
  apply groupsFrom_ext.
  - unfold Matrix.len in *. rewrite !length_app. lia.
  - intros k Hk _. rewrite <- H1 at 1. rewrite <- H2.
    by rewrite !readFloatBE_app_r by lia.
Qed.

Lemma decoder_ignores_header_witness :
  (Pipeline.decodeStep Pipeline.SRtinJs
     (replicate 524 x00 ++ [x3f; x80; x00; x00]) (Pipeline.initial 8)).1
  = (Pipeline.decodeStep Pipeline.SRtinJs
       (replicate 524 xff ++ [x3f; x80; x00; x00]) (Pipeline.initial 8)).1.
Proof.
  apply decoder_ignores_header; reflexivity.
Defined.

(** X4. Up to three bytes after the last whole group are never
    interpreted: appending fewer than four bytes to a payload whose length
    is a multiple of four leaves the chunk as it is. *)
Theorem decoder_ignores_trailing_bytes
    (s : Pipeline.script) (data tail : list byte) (st : Pipeline.state) :
  (4 | Matrix.len data) ->
  (length tail < 4)%nat ->
  (Pipeline.decodeStep s (data ++ tail) st).1 = (Pipeline.decodeStep s data st).1.
Proof.
  intros Hdiv Ht. rewrite !decodeStep_chunkOf, !chunkOf_filter. f_equal.
  unfold Matrix.groupsFrom.
  replace (Z.max 0 Matrix.skipCount) with Matrix.skipCount
    by (unfold Matrix.skipCount; lia).
  assert (Hn : (Matrix.len (data ++ tail) - Matrix.skipCount) / 4
               = (Matrix.len data - Matrix.skipCount) / 4).
  { unfold Matrix.len at 1. rewrite length_app, Nat2Z.inj_add.
    apply groups_with_tail; [exact Hdiv|lia]. }
  rewrite Hn. apply map_ext_in. intros k Hk.
  apply list_elem_of_In, elem_of_seqZ in Hk.
  pose proof (group_in_payload (Matrix.len data) k ltac:(lia)).
  unfold Matrix.valueAt. rewrite readFloatBE_app_l; [reflexivity| |lia].
  unfold Matrix.skipCount. lia.
Qed.

Lemma decoder_ignores_trailing_bytes_witness :
  (Pipeline.decodeStep Pipeline.UDPdownJs
     ((replicate 524 x00 ++ [x3f; x80; x00; x00]) ++ [xaa; xbb; xcc])
     (Pipeline.initial 8)).1
  = (Pipeline.decodeStep Pipeline.UDPdownJs
       (replicate 524 x00 ++ [x3f; x80; x00; x00]) (Pipeline.initial 8)).1.
Proof.
  apply decoder_ignores_trailing_bytes.
  - exists 132. reflexivity.
  - cbn [length]. lia.
Defined.

(** ** Datagrams too short to hold a sample *)

Lemma onMessage_empty_chunk (s : Pipeline.script) (data : list byte) (st : Pipeline.state) :
  Runs.chunkOf s data = [] -> Pipeline.onMessage s data st = st.
Proof.
  unfold Runs.chunkOf. intros Hempty.
  destruct st as [srt udp wtb]. destruct s; unfold Pipeline.onMessage, Pipeline.limit in *;
    cbn [Pipeline.sRtin Pipeline.udpDown Pipeline.writetobuf].
  - unfold SRtin.onMessage, SRtin.convertMatrixToFloat32.
    pose proof (decode_no_error (JS.of_Z 10) data) as He.
    destruct (Matrix.decode (JS.of_Z 10) data) as [fd errs].
    cbn [fst snd] in *. subst fd errs.
    by rewrite posts_add_nil_sRtin.
  - unfold UDPdown.onMessage.
    rewrite UDPdown_convert_empty; [reflexivity|].
    unfold UDPdown.convertMatrixToFloat32.
    by destruct (Matrix.decode UDPdown.lit_1e7 data).
Qed.

(** X5. A datagram of fewer than 528 bytes (a 524-byte header and less
    than one whole group) is ignored by the handler of either script: the
    state of all three scripts stays as it was. *)
Theorem short_datagram_is_ignored
    (s : Pipeline.script) (data : list byte) (st : Pipeline.state) :
  Matrix.len data < Matrix.skipCount + 4 ->
  Pipeline.onMessage s data st = st.
Proof.
  intros Hshort. apply onMessage_empty_chunk.
  rewrite chunkOf_filter. unfold Matrix.groupsFrom.
  rewrite seqZ_nil; [reflexivity|].
  apply Z.le_trans with ((Matrix.skipCount + 3 - Matrix.skipCount) / 4).
  - apply Z.div_le_mono; unfold Matrix.skipCount in *; lia.
  - vm_compute. discriminate.
Qed.

Lemma short_datagram_is_ignored_witness :
  Pipeline.onMessage Pipeline.SRtinJs (replicate 527 xff) (Pipeline.initial 8)
  = Pipeline.initial 8.
Proof.
  apply short_datagram_is_ignored. vm_compute. reflexivity.
Defined.

(** ** The recorder of [UDPdown.js] *)

Section UDPdownRecorder.

Import UDPdown.

(** A value below 1e+7 in magnitude is below 1e+20 as well, so the guard
    on [lastFloatValue] never fails for a returned sample. *)
Lemma accepted_below_1e20 (v : JS.number) :
  Runs.accepted lit_1e7 v = true -> JS.lt (JS.Math_abs v) lit_1e20 = true.
Proof.
  unfold Runs.accepted.
  change lit_1e7 with (S754_finite false 5368709120000000 (-29)).
  change lit_1e20 with (S754_finite false 6103515625000000 14).
  destruct v as [z|z| |z m e]; try done.
  unfold JS.lt, JS.Math_abs, SFltb, SFabs, SFcompare.
  destruct (Z.compare_spec e (-29)) as [->|Hlt|Hgt]; intros Hacc;
    try discriminate Hacc.
  - reflexivity.
  - destruct (Z.compare_spec e 14) as [He|He|He]; [lia|reflexivity|lia].
Qed.

Lemma last_in_filter (limit : JS.number) (l : list JS.number) (v : JS.number) :
  last (List.filter (Runs.accepted limit) l) = Some v -> Runs.accepted limit v = true.
Proof.
  intros Hlast. apply last_Some in Hlast as [l' Hl'].
  assert (Hin : In v (List.filter (Runs.accepted limit) l)).
  { rewrite Hl'. apply in_or_app. right. by left. }
  by apply filter_In in Hin as [_ ?].
Qed.

(** The decode step of [UDPdown.js] in closed form. *)
Lemma convertMatrixToFloat32_spec (data : list byte) (st : state) :
  let chunk := Runs.chunkOf Pipeline.UDPdownJs data in
  convertMatrixToFloat32 data st
  = (chunk,
     match last chunk with
     | Some v => set_last v (Z.of_nat (length chunk) - 1) st
     | None => st
     end).
Proof.
  intros chunk. unfold convertMatrixToFloat32.
  pose proof (decode_no_error lit_1e7 data) as He.
  pose proof (chunkOf_filter Pipeline.UDPdownJs data) as Hf.
  unfold Runs.chunkOf, Pipeline.limit in *. fold chunk in Hf.
  destruct (Matrix.decode lit_1e7 data) as [fd errs].
  cbn [fst snd] in *. subst errs. subst chunk.
  rewrite posts_add_nil_UDPdown.
  set (st2 := match lastValue st with
              | Some lastV =>
                  match fd with
                  | [] => st
                  | currentFirstValue :: _ =>
                      if JS.gt (JS.Math_abs (JS.sub lastV currentFirstValue)) lit_0_01
                      then st else st
                  end
              | None => st
              end).
  assert (Hst2 : st2 = st).
  { subst st2. destruct (lastValue st); [|reflexivity].
    destruct fd; [reflexivity|]. by destruct (JS.gt _ _). }
  rewrite Hst2. f_equal.
  destruct (last fd) as [v|] eqn:Hlast; [|reflexivity].
  rewrite accepted_below_1e20; [reflexivity|].
  apply (last_in_filter lit_1e7 (Matrix.groupsFrom data 0)). by rewrite <- Hf.
Qed.

(** One datagram, in closed form. *)
Lemma onMessage_spec (data : list byte) (st : state) :
  let chunk := Runs.chunkOf Pipeline.UDPdownJs data in
  onMessage data st
  = match last chunk with
    | None => st
    | Some v =>
        mkState (chunkCounter st + 1) (recordingAudio st ++ chunk)
                (Some v) (Some (Z.of_nat (length chunk) - 1))
                (float_data_txt st ++ map Some chunk) (saved st) (posts st)
    end.
Proof.
  intros chunk. unfold onMessage. rewrite convertMatrixToFloat32_spec. fold chunk.
  destruct chunk as [|x chunk'] eqn:Hc; [reflexivity|].
  destruct (last (x :: chunk')) as [v|] eqn:Hlast.
  2:{ by apply last_None in Hlast. }
  cbn [length]. rewrite Nat2Z.inj_succ.
  destruct (Z.eqb_spec (Z.succ (Z.of_nat (length chunk'))) 0); [lia|].
  reflexivity.
Qed.

(** A run of datagrams, in closed form. *)
Lemma onMessages_UDPdown_spec (payloads : list (list byte)) :
  forall st,
    let chunks := map (Runs.chunkOf Pipeline.UDPdownJs) payloads in
    let st' := Runs.onMessages_UDPdown payloads st in
    recordingAudio st' = recordingAudio st ++ concat chunks
    /\ float_data_txt st' = float_data_txt st ++ map Some (concat chunks)
    /\ chunkCounter st'
       = chunkCounter st
         + Z.of_nat (length (List.filter (fun c => negb (bool_decide (c = []))) chunks))
    /\ lastValue st'
       = match last (concat chunks) with Some v => Some v | None => lastValue st end
    /\ saved st' = saved st
    /\ posts st' = posts st.
Proof.
  induction payloads as [|data payloads IH]; intros st; cbv zeta.
  - cbn [map concat Runs.onMessages_UDPdown foldl List.filter length].
    rewrite !app_nil_r, Z.add_0_r. done.
  - change (Runs.onMessages_UDPdown (data :: payloads) st)
      with (Runs.onMessages_UDPdown payloads (onMessage data st)).
    destruct (IH (onMessage data st)) as (Hr & Hf & Hc & Hl & Hs & Hp).
    rewrite Hr, Hf, Hc, Hl, Hs, Hp. clear IH Hr Hf Hc Hl Hs Hp.
    rewrite onMessage_spec. cbn [map concat List.filter].
    set (chunk := Runs.chunkOf Pipeline.UDPdownJs data).
    set (rest := map (Runs.chunkOf Pipeline.UDPdownJs) payloads).
    rewrite last_app, map_app.
    destruct chunk as [|x chunk'] eqn:Hchunk.
    + cbn [last app map]. rewrite bool_decide_eq_true_2 by done.
      cbn [negb]. repeat split; try done. by destruct (last (concat rest)).
    + destruct (last (x :: chunk')) as [v|] eqn:Hlast.
      2:{ by apply last_None in Hlast. }
      rewrite bool_decide_eq_false_2 by done.
      cbn [negb length recordingAudio float_data_txt chunkCounter lastValue saved posts].
      rewrite <- !app_assoc. repeat split; try done.
      * lia.
      * by destruct (last (concat rest)).
Qed.

End UDPdownRecorder.

(** X6. [UDPdown.js] appends every decoded chunk to the recording, whether
    or not [startRecording] was ever called: after any sequence of
    datagrams the recording and the diagnostic file have grown by the
    concatenation of the chunks in arrival order (one file line per
    sample), the chunk counter by the number of datagrams that held at
    least one valid sample, and nothing was posted or saved. *)
Theorem UDPdown_records_every_chunk (payloads : list (list byte)) (st : UDPdown.state) :
  let chunks := map (Runs.chunkOf Pipeline.UDPdownJs) payloads in
  let st' := Runs.onMessages_UDPdown payloads st in
  UDPdown.recordingAudio st' = UDPdown.recordingAudio st ++ concat chunks
  /\ UDPdown.float_data_txt st' = UDPdown.float_data_txt st ++ map Some (concat chunks)
  /\ UDPdown.chunkCounter st'
     = UDPdown.chunkCounter st
       + Z.of_nat (length (List.filter (fun c => negb (bool_decide (c = []))) chunks))
  /\ UDPdown.saved st' = UDPdown.saved st
  /\ UDPdown.posts st' = UDPdown.posts st.
Proof.
  intros chunks st'.
  destruct (onMessages_UDPdown_spec payloads st) as (Hr & Hf & Hc & _ & Hs & Hp).
  done.
Qed.

(** X7. After any sequence of datagrams, the [lastValue] kept for the
    continuity check is the last sample of the last non-empty chunk (and is
    untouched when no datagram held a valid sample): the guard
    [Math.abs(lastFloatValue) < 1e+20] can never fail for a returned
    sample. *)
Theorem UDPdown_lastValue_is_last_sample
    (payloads : list (list byte)) (st : UDPdown.state) :
  UDPdown.lastValue (Runs.onMessages_UDPdown payloads st)
  = match last (concat (map (Runs.chunkOf Pipeline.UDPdownJs) payloads)) with
    | Some v => Some v
    | None => UDPdown.lastValue st
    end.
Proof.
  by destruct (onMessages_UDPdown_spec payloads st) as (_ & _ & _ & Hl & _).
Qed.

(** X8. A recording session of [UDPdown.js]: [startRecording], any
    sequence of datagrams, [stopRecording].  What was recorded before the
    start is discarded.  If no valid sample arrived, nothing is written and
    "No audio data to save." is posted; otherwise a successful write saves
    exactly one 16-bit value per decoded sample, in arrival order.  In
    every case the in-memory recording is empty afterwards. *)
Theorem UDPdown_session_saves_the_chunks
    (payloads : list (list byte)) (io : UDPdown.outcome) (st : UDPdown.state) :
  let samples := concat (map (Runs.chunkOf Pipeline.UDPdownJs) payloads) in
  let st' := UDPdown.stopRecording io
               (Runs.onMessages_UDPdown payloads (UDPdown.startRecording st)) in
  UDPdown.recordingAudio st' = []
  /\ (samples = [] ->
      UDPdown.saved st' = UDPdown.saved st
      /\ UDPdown.posts st' = UDPdown.posts st ++ [RecordingStarted; NoAudioData])
  /\ (samples <> [] -> io = UDPdown.Written ->
      UDPdown.saved st' = UDPdown.saved st ++ [map PCM.int16_of_float samples]
      /\ UDPdown.posts st'
         = UDPdown.posts st ++ [RecordingStarted; FileSaved; RecordingStoppedAndSaved]).
Proof.
  intros samples st'.
  set (st1 := UDPdown.startRecording st) in *.
  assert (H1 : UDPdown.recordingAudio st1 = []
               /\ UDPdown.saved st1 = UDPdown.saved st
               /\ UDPdown.posts st1 = UDPdown.posts st ++ [RecordingStarted])
    by done.
  destruct H1 as (Hr1 & Hs1 & Hp1).
  destruct (onMessages_UDPdown_spec payloads st1) as (Hr & _ & _ & _ & Hs & Hp).
  fold samples in Hr. rewrite Hr1 in Hr. rewrite Hs1 in Hs. rewrite Hp1 in Hp.
  cbn [app] in Hr.
  set (st2 := Runs.onMessages_UDPdown payloads st1) in *.
  subst st'. unfold UDPdown.stopRecording. rewrite Hr.
  destruct samples as [|x samples'] eqn:Hsam.
  - change (Z.of_nat (length []) =? 0) with true. cbv iota.
    cbn [UDPdown.add_posts UDPdown.recordingAudio UDPdown.saved UDPdown.posts].
    rewrite Hr, Hs, Hp, <- app_assoc. repeat split; done.
  - cbn [length]. rewrite Nat2Z.inj_succ.
    destruct (Z.eqb_spec (Z.succ (Z.of_nat (length samples'))) 0); [lia|].
    split; [reflexivity|]. split; [done|]. intros _ ->.
    cbn [UDPdown.saveAudioFile UDPdown.add_posts UDPdown.set_recordingAudio
         UDPdown.recordingAudio UDPdown.saved UDPdown.posts
         UDPdown.chunkCounter UDPdown.lastValue UDPdown.lastIndex UDPdown.float_data_txt].
    by rewrite Hs, Hp, <- !app_assoc.
Qed.

(** ** More on the resampler *)

Section ResamplerExtras.

Import SRtin.









Lemma position_integer_ratio (toRate k i : Z) :
  0 < toRate ->
  (inject_Z i * sampleRateRatio (k * toRate) toRate == inject_Z (k * i))%Q.
Proof.
  intros Hto. unfold sampleRateRatio. rewrite !inject_Z_mult.
  assert (~ (inject_Z toRate == 0)%Q).
  { unfold Qeq, inject_Z. cbn [Qnum Qden]. lia. }
  field. done.
Qed.

(** At a whole-number ratio [k] every position is an input index. *)
Lemma downsampleAt_integer_ratio (toRate k : Z) (l : list Z) (i : Z) :
  0 < toRate -> 0 < k ->
  0 <= i < newLength l (k * toRate) toRate ->
  0 <= k * i < Z.of_nat (length l)
  /\ downsampleAt l (sampleRateRatio (k * toRate) toRate) i = JS.wrap16 (elem l (k * i)).
Proof.
  intros Hto Hk Hi.
  pose proof (index_in_chunk (k * toRate) toRate ltac:(nia) Hto l i Hi) as Hidx.
  unfold downsampleAt.
  assert (Hindex : Qfloor (inject_Z i * sampleRateRatio (k * toRate) toRate) = k * i).
  { rewrite (Qfloor_comp _ _ (position_integer_ratio toRate k i Hto)). apply Qfloor_Z. }
  rewrite Hindex in *. split; [exact Hidx|].
  destruct (Z.ltb_spec (k * i + 1) (Z.of_nat (length l))).
  - f_equal. rewrite <- (Qround_inject (elem l (k * i))) at 2.
    unfold Qround. apply Qfloor_comp.
    rewrite (position_integer_ratio toRate k i Hto). ring.
  - unfold at16. destruct (Z.leb_spec 0 (k * i)); [reflexivity|lia].
Qed.

Lemma newLength_same_rate (l : list Z) (r : Z) :
  0 < r -> newLength l r r = Z.of_nat (length l).
Proof.
  intros Hr. rewrite newLength_eq by done.
  symmetry. apply (Z.div_unique _ _ _ r); lia.
Qed.

End ResamplerExtras.





(** X11. When the source rate is a whole multiple k of the target rate,
    the resampler only decimates: output i is input k * i, unchanged, with
    no averaging of the samples in between. *)
Theorem downsampleAudio_integer_ratio_decimates
    (audioData : list Z) (toRate k i : Z) :
  0 < toRate -> 0 < k ->
  Forall (fun x => -32768 <= x <= 32767) audioData ->
  0 <= i < Z.of_nat (length (SRtin.downsampleAudio audioData (k * toRate) toRate)) ->
  SRtin.downsampleAudio audioData (k * toRate) toRate !! Z.to_nat i
  = audioData !! Z.to_nat (k * i)
  /\ k * i < Z.of_nat (length audioData).
Proof.
  intros Ht Hk Hall Hi.
  rewrite length_downsampleAudio in Hi.
  assert (Hi' : 0 <= i < SRtin.newLength audioData (k * toRate) toRate) by lia.
  destruct (downsampleAt_integer_ratio toRate k audioData i Ht Hk Hi') as [Hidx Hat].
  split; [|lia].
  rewrite (lookup_downsampleAudio (k * toRate) toRate) by done. rewrite Hat.
  destruct (lookup_lt_is_Some_2 audioData (Z.to_nat (k * i))) as [x Hx]; [lia|].
  unfold SRtin.elem. rewrite Hx. cbn. f_equal. apply wrap16_id.
  eapply Forall_lookup_1 in Hall; eauto.
Qed.

Lemma downsampleAudio_integer_ratio_decimates_witness :
  SRtin.downsampleAudio [10; 20; 30; 40; 50; 60; 70] 48000 16000 !! Z.to_nat 1
  = [10; 20; 30; 40; 50; 60; 70] !! Z.to_nat (3 * 1).
Proof.
  apply (downsampleAudio_integer_ratio_decimates [10; 20; 30; 40; 50; 60; 70] 16000 3 1);
    try lia.
  - repeat constructor; lia.
  - vm_compute. split; [discriminate|reflexivity].
Defined.

(** X12. Resampling 16-bit samples from a rate to the same rate returns
    the input unchanged. *)
Theorem downsampleAudio_same_rate_is_identity (audioData : list Z) (rate : Z) :
  0 < rate ->
  Forall (fun x => -32768 <= x <= 32767) audioData ->
  SRtin.downsampleAudio audioData rate rate = audioData.
Proof.
  intros Hr Hall. apply list_eq. intros n.
  unfold SRtin.downsampleAudio. rewrite list_lookup_fmap, newLength_same_rate by done.
  destruct (decide (n < length audioData)%nat) as [Hn|Hn].
  - rewrite lookup_seqZ_lt by lia. cbn [fmap option_fmap option_map].
    replace rate with (1 * rate) at 1 by lia.
    destruct (downsampleAt_integer_ratio rate 1 audioData (0 + Z.of_nat n)) as [_ ->];
      [done|lia| |].
    { rewrite Z.mul_1_l, newLength_same_rate by done. lia. }
    destruct (lookup_lt_is_Some_2 audioData n Hn) as [x Hx].
    unfold SRtin.elem. replace (Z.to_nat (1 * (0 + Z.of_nat n))) with n by lia.
    rewrite Hx. cbn. f_equal. apply wrap16_id.
    eapply Forall_lookup_1 in Hall; eauto.
  - rewrite lookup_seqZ_ge by lia. cbn. symmetry. apply lookup_ge_None. lia.
Qed.

Lemma downsampleAudio_same_rate_is_identity_witness :
  SRtin.downsampleAudio [5; -7; 32767; -32768] 16000 16000 = [5; -7; 32767; -32768].
Proof.
  apply downsampleAudio_same_rate_is_identity; [lia|].
  repeat constructor; lia.
Defined.

(** ** Runs of datagrams through [sRtin.js] *)

Section SRtinRuns.

Import SRtin.














End SRtinRuns.







(** ** Messages to [writetobuf.js], in any order *)

Section BufferInvariants.

Import WriteToBuf BufferRuns.

Lemma same_shape_refl (b : Buffer) : same_shape b b.
Proof. by split. Qed.

Lemma same_shape_trans (b1 b2 b3 : Buffer) :
  same_shape b1 b2 -> same_shape b2 b3 -> same_shape b1 b3.
Proof. intros [H1 H2] [H3 H4]. split; congruence. Qed.

Lemma same_shape_poke (b : Buffer) (c f : Z) (v : Q) : same_shape b (poke b c f v).
Proof. split; [apply framecount_poke|apply channelcount_poke]. Qed.

Lemma same_shape_pokeChunk (data : list Q) (b : Buffer) (start : Z) :
  same_shape b (pokeChunk b start data).
Proof. split; [apply framecount_pokeChunk|apply channelcount_pokeChunk]. Qed.

Lemma same_shape_foldl {A : Type} (f : Buffer -> A -> Buffer) (l : list A) :
  (forall b x, same_shape b (f b x)) ->
  forall b, same_shape b (foldl f b l).
Proof.
  intros Hf. induction l as [|x l IH]; intros b; cbn [foldl].
  - apply same_shape_refl.
  - eapply same_shape_trans; [apply Hf|apply IH].
Qed.

Lemma preserved_refl (st : state) : preserved st st.
Proof. repeat split; done. Qed.

Lemma preserved_trans (s1 s2 s3 : state) :
  preserved s1 s2 -> preserved s2 s3 -> preserved s1 s3.
Proof.
  intros (Ha & [? ?] & [? ?] & ? & ?) (Ha' & [? ?] & [? ?] & ? & ?).
  repeat split; try congruence. auto.
Qed.

Lemma preserved_assign (r : ref) (b : Buffer) (st : state) :
  same_shape (deref st r) b -> preserved st (assign r b st).
Proof. intros [Hf Hc]. destruct r; repeat split; done. Qed.

Lemma preserved_add_posts (ps : list post) (st : state) : preserved st (add_posts ps st).
Proof. repeat split; done. Qed.

Lemma preserved_set_clipStart1 (c : Z) (st : state) : preserved st (set_clipStart1 c st).
Proof. repeat split; done. Qed.

Lemma preserved_writeAudioChunk (data : list Q) (st : state) :
  preserved st (writeAudioChunk data st).
Proof.
  unfold writeAudioChunk.
  repeat match goal with |- context [if ?b then _ else _] => destruct b end;
    try apply preserved_add_posts;
    repeat (eapply preserved_trans; [|apply preserved_set_clipStart1]);
    apply preserved_assign, same_shape_pokeChunk.
Qed.

Lemma preserved_applyFadeOut (st : state) : preserved st (applyFadeOut st).
Proof.
  unfold applyFadeOut.
  eapply preserved_trans; [|apply preserved_add_posts].
  apply preserved_assign, same_shape_foldl. intros b c.
  apply same_shape_foldl. intros b' i. apply same_shape_poke.
Qed.

Lemma preserved_switchBuffer (st : state) : preserved st (switchBuffer st).
Proof. repeat split; done. Qed.

Lemma preserved_clearInactiveBuffer (st : state) : preserved st (clearInactiveBuffer st).
Proof.
  unfold clearInactiveBuffer.
  eapply preserved_trans; [|apply preserved_add_posts].
  eapply preserved_trans; [|apply preserved_set_clipStart1].
  apply preserved_assign. by split.
Qed.

Lemma preserved_clearBuffer (st : state) : preserved st (clearBuffer st).
Proof.
  unfold clearBuffer.
  eapply preserved_trans; [apply preserved_applyFadeOut|].
  eapply preserved_trans; [apply preserved_switchBuffer|].
  repeat split; done.
Qed.

Lemma preserved_elapse (dt : Z) (st : state) : preserved st (elapse dt st).
Proof.
  unfold elapse.
  set (s0 := set_tasks _ (set_now _ st)).
  assert (H0 : preserved st s0) by (repeat split; done).
  generalize (filter (fun d => d <= now st + dt) (tasks st)) as due.
  clearbody s0. intros due. revert s0 H0.
  induction due as [|d due IH]; intros s0 H0; cbn [foldl]; [done|].
  apply IH. eapply preserved_trans; [exact H0|apply preserved_clearInactiveBuffer].
Qed.

Lemma preserved_step (e : event) (st : state) : preserved st (step e st).
Proof.
  destruct e; cbn [step].
  - apply preserved_writeAudioChunk.
  - apply preserved_clearBuffer.
  - apply preserved_clearInactiveBuffer.
  - apply preserved_switchBuffer.
  - apply preserved_applyFadeOut.
  - apply preserved_elapse.
Qed.

Lemma preserved_run (events : list event) : forall st, preserved st (run events st).
Proof.
  induction events as [|e events IH]; intros st; [apply preserved_refl|].
  change (run (e :: events) st) with (run events (step e st)).
  eapply preserved_trans; [apply preserved_step|apply IH].
Qed.

End BufferInvariants.

(** X16. Whatever messages [writetobuf.js] receives, in whatever order and
    with whatever delays between them, the active and the inactive
    reference never come to name the same buffer, neither buffer changes
    its frame count or channel count, and [switchDelay] and [fadeLength]
    keep their values. *)
Theorem buffer_roles_stay_distinct
    (events : list BufferRuns.event) (st : WriteToBuf.state) :
  WriteToBuf.activeBuffer st <> WriteToBuf.inactiveBuffer st ->
  let st' := BufferRuns.run events st in
  WriteToBuf.activeBuffer st' <> WriteToBuf.inactiveBuffer st'
  /\ WriteToBuf.framecount (WriteToBuf.buffer1 st')
     = WriteToBuf.framecount (WriteToBuf.buffer1 st)
  /\ WriteToBuf.channelcount (WriteToBuf.buffer1 st')
     = WriteToBuf.channelcount (WriteToBuf.buffer1 st)
  /\ WriteToBuf.framecount (WriteToBuf.buffer2 st')
     = WriteToBuf.framecount (WriteToBuf.buffer2 st)
  /\ WriteToBuf.channelcount (WriteToBuf.buffer2 st')
     = WriteToBuf.channelcount (WriteToBuf.buffer2 st)
  /\ WriteToBuf.switchDelay st' = WriteToBuf.switchDelay st
  /\ WriteToBuf.fadeLength st' = WriteToBuf.fadeLength st.
Proof.
  intros Hne st'.
  destruct (preserved_run events st) as (Ha & [? ?] & [? ?] & ? & ?).
  repeat split; try done. by apply Ha.
Qed.

Lemma buffer_roles_stay_distinct_witness :
  let st' := BufferRuns.run
               [BufferRuns.WriteAudioChunk [1; 2; 3]%Q; BufferRuns.ClearBuffer;
                BufferRuns.Elapse 5; BufferRuns.SwitchBuffer; BufferRuns.Elapse 30]
               (WriteToBuf.initial (WriteToBuf.silent 8 1) (WriteToBuf.silent 8 2)) in
  WriteToBuf.activeBuffer st' <> WriteToBuf.inactiveBuffer st'.
Proof.
  intros st'.
  assert (Hne : WriteToBuf.activeBuffer
                  (WriteToBuf.initial (WriteToBuf.silent 8 1) (WriteToBuf.silent 8 2))
                <> WriteToBuf.inactiveBuffer
                     (WriteToBuf.initial (WriteToBuf.silent 8 1) (WriteToBuf.silent 8 2)))
    by discriminate.
  exact (proj1 (buffer_roles_stay_distinct _ _ Hne)).
Defined.

(** ** Writes to the active buffer, whatever the cursor *)

Section BufferWrites.

Import WriteToBuf.

Lemma samples_poke_ne (b : Buffer) (c f : Z) (v : Q) (c' f' : Z) :
  ~ (c' = c /\ f' = f) -> samples (poke b c f v) c' f' = samples b c' f'.
Proof.
  intros Hne. unfold poke. destruct (in_range b c f); cbn [samples]; [|done].
  destruct (Z.eqb_spec c' c), (Z.eqb_spec f' f); cbn [andb]; try done.
  exfalso. by apply Hne.
Qed.

(** A chunk changes no sample outside channel 1, frames
    [start .. start + length - 1], wherever [start] lies. *)
Lemma samples_pokeChunk_outside (data : list Q) :
  forall b start c f,
    ~ (c = 1 /\ start <= f < start + Z.of_nat (length data)) ->
    samples (pokeChunk b start data) c f = samples b c f.
Proof.
  induction data as [|x data IH]; intros b start c f Hcf; cbn [pokeChunk]; [done|].
  cbn [length] in Hcf.
  rewrite IH by lia. apply samples_poke_ne. lia.
Qed.

Lemma pokeChunk_app (d1 d2 : list Q) :
  forall b start,
    pokeChunk b start (d1 ++ d2)
    = pokeChunk (pokeChunk b start d1) (start + Z.of_nat (length d1)) d2.
Proof.
  induction d1 as [|x d1 IH]; intros b start.
  - cbn [app pokeChunk length]. by rewrite Z.add_0_r.
  - cbn [app pokeChunk length]. rewrite IH. f_equal. lia.
Qed.

(** A chunk poked at or past the end of the buffer is refused sample by
    sample. *)
Lemma pokeChunk_beyond (data : list Q) :
  forall b start,
    framecount b <= start ->
    samples (pokeChunk b start data) = samples b
    /\ rejected (pokeChunk b start data)
       = rejected b ++ imap (fun i x => (1, start + Z.of_nat i, x)) data.
Proof.
  induction data as [|x data IH]; intros b start Hs; cbn [pokeChunk].
  - cbn [imap]. by rewrite app_nil_r.
  - assert (Hout : in_range b 1 start = false).
    { unfold in_range. apply andb_false_intro2. lia. }
    destruct (IH (poke b 1 start x) (start + 1)) as [Hsm Hrj].
    { rewrite framecount_poke. lia. }
    rewrite Hsm, Hrj. unfold poke. rewrite Hout. cbn [samples rejected imap].
    split; [done|]. rewrite <- app_assoc. cbn [app]. do 2 f_equal.
    { f_equal. f_equal. lia. }
    apply imap_ext. intros i y _. cbn. do 2 f_equal. lia.
Qed.

(** The three ways a write can go. *)
Lemma writeAudioChunk_cases (data : list Q) (st : state) :
  let cap := framecount (deref st (activeBuffer st)) in
  let n := Z.of_nat (length data) in
  (cap = 0 /\ writeAudioChunk data st = add_posts [BufferNotInitialized] st)
  \/ (cap <> 0 /\ cap < n /\ writeAudioChunk data st = add_posts [BufferTooSmall] st)
  \/ (cap <> 0 /\ n <= cap /\
      exists c',
        writeAudioChunk data st
        = set_clipStart1 c'
            (assign (activeBuffer st)
                    (pokeChunk (deref st (activeBuffer st)) (clipStart1 st) data) st)).
Proof.
  intros cap n. unfold writeAudioChunk. fold cap n.
  destruct (Z.eqb_spec cap 0) as [H0|H0]; [by left|right].
  destruct (Z.ltb_spec cap n) as [Hbig|Hok]; [by left|right].
  repeat split; try done.
  match goal with |- context [if ?c then _ else _] => destruct c end;
    eexists; reflexivity.
Qed.

(** A write changes neither the roles nor the pending clears nor the clock. *)
Lemma writeAudioChunk_frame (data : list Q) (st : state) :
  activeBuffer (writeAudioChunk data st) = activeBuffer st
  /\ inactiveBuffer (writeAudioChunk data st) = inactiveBuffer st
  /\ tasks (writeAudioChunk data st) = tasks st
  /\ now (writeAudioChunk data st) = now st
  /\ switchDelay (writeAudioChunk data st) = switchDelay st.
Proof.
  destruct (writeAudioChunk_cases data st)
    as [[_ ->]|[(_ & _ & ->)|(_ & _ & c' & ->)]]; try done.
  match goal with
  | |- context [assign ?r ?b st] =>
      destruct (assign_frame r b st) as (Ha & Hi & _ & Hd & _ & Ht & Hn & _)
  end.
  cbn [set_clipStart1 activeBuffer inactiveBuffer tasks now switchDelay].
  by rewrite Ha, Hi, Ht, Hn, Hd.
Qed.

Lemma deref_set_clipStart1 (c : Z) (st : state) (r : ref) :
  deref (set_clipStart1 c st) r = deref st r.
Proof. by destruct r. Qed.

(** A write leaves the other buffer alone. *)
Lemma writeAudioChunk_other (data : list Q) (st : state) (r : ref) :
  r <> activeBuffer st -> deref (writeAudioChunk data st) r = deref st r.
Proof.
  intros Hr.
  destruct (writeAudioChunk_cases data st)
    as [[_ ->]|[(_ & _ & ->)|(_ & _ & c' & ->)]];
    rewrite ?deref_add_posts, ?deref_set_clipStart1; try done.
  by apply deref_assign_ne.
Qed.

(** A write touches the active buffer only through [pokeChunk]. *)
Lemma writeAudioChunk_active (data : list Q) (st : state) :
  deref (writeAudioChunk data st) (activeBuffer st) = deref st (activeBuffer st)
  \/ deref (writeAudioChunk data st) (activeBuffer st)
     = pokeChunk (deref st (activeBuffer st)) (clipStart1 st) data.
Proof.
  destruct (writeAudioChunk_cases data st)
    as [[_ ->]|[(_ & _ & ->)|(_ & _ & c' & ->)]];
    rewrite ?deref_add_posts, ?deref_set_clipStart1; [by left..|right].
  apply deref_assign.
Qed.

End BufferWrites.

(** X17. One [writeAudioChunk] call, whatever the cursor and the sizes,
    changes no sample of the active buffer outside channel 1, frames
    [clipStart1 .. clipStart1 + n - 1], changes neither size of it, and
    leaves the inactive buffer, the roles and the pending clears exactly as
    they were. *)
Theorem write_touches_only_its_frames (audioData : list Q) (st : WriteToBuf.state) :
  let a := WriteToBuf.activeBuffer st in
  let st' := WriteToBuf.writeAudioChunk audioData st in
  WriteToBuf.activeBuffer st <> WriteToBuf.inactiveBuffer st ->
  (forall c f,
      ~ (c = 1 /\ WriteToBuf.clipStart1 st <= f
                  < WriteToBuf.clipStart1 st + Z.of_nat (length audioData)) ->
      WriteToBuf.peek (WriteToBuf.deref st' a) c f = WriteToBuf.peek (WriteToBuf.deref st a) c f)
  /\ WriteToBuf.framecount (WriteToBuf.deref st' a)
     = WriteToBuf.framecount (WriteToBuf.deref st a)
  /\ WriteToBuf.channelcount (WriteToBuf.deref st' a)
     = WriteToBuf.channelcount (WriteToBuf.deref st a)
  /\ WriteToBuf.deref st' (WriteToBuf.inactiveBuffer st)
     = WriteToBuf.deref st (WriteToBuf.inactiveBuffer st)
  /\ WriteToBuf.activeBuffer st' = a
  /\ WriteToBuf.inactiveBuffer st' = WriteToBuf.inactiveBuffer st
  /\ WriteToBuf.tasks st' = WriteToBuf.tasks st.
Proof.
  intros a st' Hne. subst st'.
  destruct (writeAudioChunk_frame audioData st) as (Ha & Hi & Ht & _).
  assert (Hother := writeAudioChunk_other audioData st (WriteToBuf.inactiveBuffer st)).
  destruct (writeAudioChunk_active audioData st) as [Hb|Hb]; fold a in Hb; rewrite Hb.
  - repeat split; try done. apply Hother. congruence.
  - repeat split; try done.
    + intros c f Hcf. unfold WriteToBuf.peek. by apply samples_pokeChunk_outside.
    + apply framecount_pokeChunk.
    + apply channelcount_pokeChunk.
    + apply Hother. congruence.
Qed.

Lemma write_touches_only_its_frames_witness :
  let st := WriteToBuf.writeAudioChunk [1; 2; 3]%Q
              (WriteToBuf.initial (WriteToBuf.silent 4 1) (WriteToBuf.silent 4 1)) in
  let st' := WriteToBuf.writeAudioChunk [4; 5; 6]%Q st in
  WriteToBuf.peek (WriteToBuf.deref st' WriteToBuf.UDPbuf) 1 0 = 1%Q
  /\ WriteToBuf.deref st' WriteToBuf.UDPbuf2 = WriteToBuf.silent 4 1.
Proof.
  intros st st'.
  assert (Hne : WriteToBuf.activeBuffer st <> WriteToBuf.inactiveBuffer st) by discriminate.
  pose proof (write_touches_only_its_frames [4; 5; 6]%Q st Hne)
    as (Hs & _ & _ & Hin & _).
  split.
  - apply (Hs 1 0). vm_compute. intros [_ [H _]]. by apply H.
  - exact Hin.
Defined.

(** X18. A chunk that is accepted but passes the end of the active buffer
    is cut off there: the samples that still fall on frames of the buffer
    are stored, each sample past the end goes to [poke] with a frame index
    at or beyond the frame count and is refused by it, in order, and no
    frame before the cursor is written, so nothing continues at frame 0. *)
Theorem overflowing_write_drops_the_excess (audioData : list Q) (st : WriteToBuf.state) :
  let a := WriteToBuf.activeBuffer st in
  let b := WriteToBuf.deref st a in
  let cap := WriteToBuf.framecount b in
  let cur := WriteToBuf.clipStart1 st in
  let b' := WriteToBuf.deref (WriteToBuf.writeAudioChunk audioData st) a in
  0 <= cur < cap ->
  1 <= WriteToBuf.channelcount b ->
  Z.of_nat (length audioData) <= cap ->
  (forall (i : nat) (x : Q),
      audioData !! i = Some x -> cur + Z.of_nat i < cap ->
      WriteToBuf.peek b' 1 (cur + Z.of_nat i) = x)
  /\ WriteToBuf.rejected b'
     = WriteToBuf.rejected b
       ++ imap (fun i x => (1, cap + Z.of_nat i, x)) (drop (Z.to_nat (cap - cur)) audioData)
  /\ (forall c f, f < cur -> WriteToBuf.peek b' c f = WriteToBuf.peek b c f).
Proof.
  intros a b cap cur b' Hcur Hch Hn. subst b'. unfold a.
  rewrite writeAudioChunk_buffer by (fold a b cap; lia). fold a b cur.
  set (k := Z.to_nat (cap - cur)).
  assert (Hsplit : WriteToBuf.pokeChunk b cur audioData
                   = WriteToBuf.pokeChunk (WriteToBuf.pokeChunk b cur (take k audioData))
                       (cur + Z.of_nat (length (take k audioData))) (drop k audioData)).
  { by rewrite <- pokeChunk_app, take_drop. }
  rewrite Hsplit. clear Hsplit.
  assert (Hlen : Z.of_nat (length (take k audioData)) <= cap - cur).
  { rewrite length_take. lia. }
  destruct (pokeChunk_fits (take k audioData) b cur) as (Hrej & Hin & Hout);
    [done|lia|fold cap; lia|].
  split; [|split].
  - intros i x Hx Hi. unfold WriteToBuf.peek.
    assert (Hi' : (i < length (take k audioData))%nat).
    { apply lookup_lt_Some in Hx. rewrite length_take. lia. }
    rewrite samples_pokeChunk_outside by lia.
    apply Hin. rewrite lookup_take_lt by lia. done.
  - destruct (decide (k <= length audioData)%nat) as [Hk|Hk].
    + assert (Hend : cur + Z.of_nat (length (take k audioData)) = cap).
      { rewrite length_take. lia. }
      rewrite Hend.
      destruct (pokeChunk_beyond (drop k audioData)
                  (WriteToBuf.pokeChunk b cur (take k audioData)) cap) as [_ Hrj].
      { rewrite framecount_pokeChunk. fold cap. lia. }
      by rewrite Hrj, Hrej.
    + rewrite (drop_ge audioData k) by lia.
      cbn [WriteToBuf.pokeChunk imap]. by rewrite Hrej, app_nil_r.
  - intros c f Hf. unfold WriteToBuf.peek.
    rewrite samples_pokeChunk_outside by lia.
    apply samples_pokeChunk_outside. lia.
Qed.

Lemma overflowing_write_drops_the_excess_witness :
  let st := WriteToBuf.writeAudioChunk [1; 2; 3]%Q
              (WriteToBuf.initial (WriteToBuf.silent 4 1) (WriteToBuf.silent 4 1)) in
  WriteToBuf.rejected
    (WriteToBuf.deref (WriteToBuf.writeAudioChunk [4; 5; 6]%Q st) WriteToBuf.UDPbuf)
  = [(1, 4, 5%Q); (1, 5, 6%Q)].
Proof.
  intros st.
  assert (Hcur : 0 <= WriteToBuf.clipStart1 st
                 < WriteToBuf.framecount (WriteToBuf.deref st (WriteToBuf.activeBuffer st)))
    by (vm_compute; split; discriminate || reflexivity).
  assert (Hch : 1 <= WriteToBuf.channelcount (WriteToBuf.deref st (WriteToBuf.activeBuffer st)))
    by (vm_compute; discriminate).
  assert (Hn : Z.of_nat (length [4; 5; 6]%Q)
               <= WriteToBuf.framecount (WriteToBuf.deref st (WriteToBuf.activeBuffer st)))
    by (vm_compute; discriminate).
  exact (proj1 (proj2 (overflowing_write_drops_the_excess [4; 5; 6]%Q st Hcur Hch Hn))).
Defined.

(** ** Refused chunks in a stream of writes *)

Section RefusedChunks.

Import WriteToBuf BufferRuns.

Lemma written_inv (st st2 : state) :
  written st = written st2 ->
  buffer1 st = buffer1 st2 /\ buffer2 st = buffer2 st2
  /\ activeBuffer st = activeBuffer st2 /\ clipStart1 st = clipStart1 st2.
Proof. unfold written. intros H. by injection H as -> -> -> ->. Qed.

Lemma written_deref (st st2 : state) (r : ref) :
  written st = written st2 -> deref st r = deref st2 r.
Proof. intros (H1 & H2 & _)%written_inv. by destruct r. Qed.

(** A write reads nothing but the buffers, the active reference and the
    cursor. *)
Lemma writeAudioChunk_congr (data : list Q) (st st2 : state) :
  written st = written st2 ->
  written (writeAudioChunk data st) = written (writeAudioChunk data st2).
Proof.
  intros Hw. pose proof (written_deref st st2 (activeBuffer st) Hw) as Hd.
  destruct (written_inv _ _ Hw) as (H1 & H2 & Ha & Hc).
  destruct (writeAudioChunk_cases data st)
    as [[H0 ->]|[(H0 & Hn & ->)|(H0 & Hn & c' & Hst)]];
  destruct (writeAudioChunk_cases data st2)
    as [[H0' ->]|[(H0' & Hn' & ->)|(H0' & Hn' & c2 & Hst2)]];
    rewrite <- ?Ha, <- ?Hd in *; try lia; try done.
  destruct (writeAudioChunk_cursor data st) as (_ & _ & Hcur & _).
  destruct (writeAudioChunk_cursor data st2) as (_ & _ & Hcur2 & _).
  rewrite <- Ha, <- Hd, <- Hc in Hcur2. rewrite <- Hcur in Hcur2.
  rewrite Hst, Hst2 in *. rewrite <- Hc.
  unfold written. cbn [set_clipStart1 clipStart1 activeBuffer buffer1 buffer2] in *.
  rewrite Hcur2.
  destruct (activeBuffer st) eqn:Ea; cbn [assign buffer1 buffer2 activeBuffer];
    by rewrite ?H1, ?H2, <- ?Ha, ?Ea.
Qed.

(** The message a refused chunk earns. *)
Lemma writeAudioChunk_refused (data : list Q) (st : state) :
  let cap := framecount (deref st (activeBuffer st)) in
  ~ (cap <> 0 /\ Z.of_nat (length data) <= cap) ->
  writeAudioChunk data st
  = add_posts [if cap =? 0 then BufferNotInitialized else BufferTooSmall] st.
Proof.
  intros cap Hno.
  destruct (writeAudioChunk_cases data st)
    as [[H0 ->]|[(H0 & Hn & ->)|(H0 & Hn & _)]]; fold cap in H0.
  - by rewrite H0.
  - by destruct (Z.eqb_spec cap 0).
  - exfalso. by apply Hno.
Qed.

Lemma writeAll_skips_refused (chunks : list (list Q)) :
  forall st st2,
    written st = written st2 ->
    let cap := framecount (deref st (activeBuffer st)) in
    written (writeAll chunks st)
    = written (writeAll
                 (filter (fun c => cap <> 0 /\ Z.of_nat (length c) <= cap) chunks) st2)
    /\ posts (writeAll
                (filter (fun c => cap <> 0 /\ Z.of_nat (length c) <= cap) chunks) st2)
       = posts st2
    /\ posts (writeAll chunks st)
       = posts st
         ++ map (fun _ => if cap =? 0 then BufferNotInitialized else BufferTooSmall)
                (filter (fun c => ~ (cap <> 0 /\ Z.of_nat (length c) <= cap)) chunks).
Proof.
  induction chunks as [|c chunks IH]; intros st st2 Hw cap.
  - cbn [writeAll foldl map]. rewrite !filter_nil. cbn [foldl map].
    by rewrite app_nil_r.
  - change (writeAll (c :: chunks) st) with (writeAll chunks (writeAudioChunk c st)).
    rewrite !filter_cons.
    destruct (writeAudioChunk_cursor c st) as (Ha & Hf & _ & Hp).
    assert (Hcap : framecount (deref (writeAudioChunk c st)
                                     (activeBuffer (writeAudioChunk c st))) = cap)
      by (by rewrite Ha, Hf).
    destruct (decide (cap <> 0 /\ Z.of_nat (length c) <= cap)) as [Hok|Hno].
    + destruct (decide (~ (cap <> 0 /\ Z.of_nat (length c) <= cap))) as [Hx|_];
        [by destruct Hx|].
      change (writeAll (c :: ?l) st2) with (writeAll l (writeAudioChunk c st2)).
      destruct (IH (writeAudioChunk c st) (writeAudioChunk c st2)
                  (writeAudioChunk_congr c st st2 Hw)) as (Hw' & Hp2 & Hp').
      rewrite Hcap in Hw', Hp2, Hp'.
      destruct (writeAudioChunk_cursor c st2) as (_ & _ & _ & Hq).
      rewrite <- (written_deref st st2) in Hq by done.
      destruct (written_inv _ _ Hw) as (_ & _ & Hact & _).
      rewrite <- Hact in Hq. fold cap in Hq, Hp.
      rewrite Hw', Hp2, Hp', Hq, Hp by tauto. done.
    + destruct (decide (~ (cap <> 0 /\ Z.of_nat (length c) <= cap))) as [_|Hx];
        [|by destruct Hx].
      assert (Hw1 : written (writeAudioChunk c st) = written st2).
      { rewrite writeAudioChunk_refused by done. exact Hw. }
      destruct (IH (writeAudioChunk c st) st2 Hw1) as (Hw' & Hp2 & Hp').
      rewrite Hcap in Hw', Hp2, Hp'.
      rewrite Hw', Hp2, Hp'. repeat split.
      rewrite writeAudioChunk_refused by done. fold cap.
      cbn [add_posts posts map]. by rewrite <- app_assoc.
Qed.

End RefusedChunks.

(** X19. In any sequence of [writeAudioChunk] calls, a chunk that is
    refused (the active buffer has no frames, or fewer frames than the
    chunk has samples) is dropped whole: the buffers and the cursor end up
    exactly as if that chunk had never been sent, each refused chunk posts
    one message, and an accepted chunk posts none. *)
Theorem refused_chunks_leave_no_trace
    (chunks : list (list Q)) (st : WriteToBuf.state) :
  let cap := WriteToBuf.framecount (WriteToBuf.deref st (WriteToBuf.activeBuffer st)) in
  let accepted :=
    filter (fun c => cap <> 0 /\ Z.of_nat (length c) <= cap) chunks in
  let refused :=
    filter (fun c => ~ (cap <> 0 /\ Z.of_nat (length c) <= cap)) chunks in
  WriteToBuf.buffer1 (WriteToBuf.writeAll chunks st)
  = WriteToBuf.buffer1 (WriteToBuf.writeAll accepted st)
  /\ WriteToBuf.buffer2 (WriteToBuf.writeAll chunks st)
     = WriteToBuf.buffer2 (WriteToBuf.writeAll accepted st)
  /\ WriteToBuf.clipStart1 (WriteToBuf.writeAll chunks st)
     = WriteToBuf.clipStart1 (WriteToBuf.writeAll accepted st)
  /\ WriteToBuf.posts (WriteToBuf.writeAll accepted st) = WriteToBuf.posts st
  /\ WriteToBuf.posts (WriteToBuf.writeAll chunks st)
     = WriteToBuf.posts st
       ++ map (fun _ => if cap =? 0 then BufferNotInitialized else BufferTooSmall) refused.
Proof.
  intros cap accepted refused.
  destruct (writeAll_skips_refused chunks st st eq_refl) as (Hw & Hp & Hp').
  destruct (written_inv _ _ Hw) as (H1 & H2 & _ & Hc).
  repeat split; done.
Qed.

(** ** Writing around a switch *)

Section WritesAroundASwitch.

Import WriteToBuf.

(** [applyFadeOut] touches the active buffer only. *)
Lemma applyFadeOut_other (st : state) (r : ref) :
  r <> activeBuffer st -> deref (applyFadeOut st) r = deref st r.
Proof.
  intros Hr. unfold applyFadeOut. rewrite deref_add_posts. by apply deref_assign_ne.
Qed.

(** [clearInactiveBuffer] touches the inactive buffer only. *)
Lemma clearInactiveBuffer_other (st : state) (r : ref) :
  r <> inactiveBuffer st -> deref (clearInactiveBuffer st) r = deref st r.
Proof.
  intros Hr. unfold clearInactiveBuffer.
  rewrite deref_add_posts, deref_set_clipStart1. by apply deref_assign_ne.
Qed.

Lemma run_due_other (due : list Z) (r : ref) :
  forall st,
    r <> inactiveBuffer st ->
    deref (foldl (fun s _ => clearInactiveBuffer s) st due) r = deref st r.
Proof.
  induction due as [|d due IH]; intros st Hr; cbn [foldl]; [done|].
  destruct (clearInactiveBuffer_spec st) as (_ & Hi & _).
  rewrite IH by (by rewrite Hi). by apply clearInactiveBuffer_other.
Qed.

(** Passing time touches the inactive buffer only. *)
Lemma elapse_other (dt : Z) (st : state) (r : ref) :
  r <> inactiveBuffer st -> deref (elapse dt st) r = deref st r.
Proof.
  intros Hr. unfold elapse. rewrite run_due_other by done. by destruct r.
Qed.

Lemma writeAll_frame (chunks : list (list Q)) :
  forall st,
    activeBuffer (writeAll chunks st) = activeBuffer st
    /\ inactiveBuffer (writeAll chunks st) = inactiveBuffer st
    /\ tasks (writeAll chunks st) = tasks st
    /\ now (writeAll chunks st) = now st
    /\ switchDelay (writeAll chunks st) = switchDelay st
    /\ (forall r, r <> activeBuffer st -> deref (writeAll chunks st) r = deref st r).
Proof.
  induction chunks as [|c chunks IH]; intros st; [done|].
  change (writeAll (c :: chunks) st) with (writeAll chunks (writeAudioChunk c st)).
  destruct (writeAudioChunk_frame c st) as (Ha & Hi & Ht & Hn & Hd).
  destruct (IH (writeAudioChunk c st)) as (Ha' & Hi' & Ht' & Hn' & Hd' & Ho').
  rewrite Ha', Hi', Ht', Hn', Hd', Ha, Hi, Ht, Hn, Hd. repeat split.
  intros r Hr. rewrite Ho' by (by rewrite Ha). by apply writeAudioChunk_other.
Qed.

End WritesAroundASwitch.

(** X20. [clearBuffer] does not move the cursor: the first chunk written
    after a switch goes into the buffer that has just become active at the
    frame where the old buffer's cursor stood, over whatever that buffer
    holds, and not at frame 0. *)
Theorem switch_keeps_the_cursor (audioData : list Q) (st : WriteToBuf.state) :
  let i := WriteToBuf.inactiveBuffer st in
  let st1 := WriteToBuf.clearBuffer st in
  WriteToBuf.activeBuffer st <> i ->
  WriteToBuf.framecount (WriteToBuf.deref st i) <> 0 ->
  Z.of_nat (length audioData) <= WriteToBuf.framecount (WriteToBuf.deref st i) ->
  WriteToBuf.clipStart1 st1 = WriteToBuf.clipStart1 st
  /\ WriteToBuf.activeBuffer st1 = i
  /\ WriteToBuf.deref st1 i = WriteToBuf.deref st i
  /\ WriteToBuf.deref (WriteToBuf.writeAudioChunk audioData st1) i
     = WriteToBuf.pokeChunk (WriteToBuf.deref st i) (WriteToBuf.clipStart1 st) audioData.
Proof.
  intros i st1 Hne H0 Hn.
  destruct (clearBuffer_after_fade st) as (Ca & _ & Cc & _).
  destruct (applyFadeOut_frame st) as (_ & Hi & Hc & _).
  fold st1 in Ca, Cc.
  assert (Hact : WriteToBuf.activeBuffer st1 = i) by (by rewrite Ca, Hi).
  assert (Hcur : WriteToBuf.clipStart1 st1 = WriteToBuf.clipStart1 st)
    by (by rewrite Cc, Hc).
  assert (Hbuf : WriteToBuf.deref st1 i = WriteToBuf.deref st i).
  { unfold st1. rewrite deref_clearBuffer. apply applyFadeOut_other. congruence. }
  repeat split; try done.
  rewrite <- Hact at 1. rewrite writeAudioChunk_buffer by (rewrite Hact, Hbuf; done).
  by rewrite Hact, Hbuf, Hcur.
Qed.

Lemma switch_keeps_the_cursor_witness :
  let st := WriteToBuf.writeAudioChunk [1; 2; 3]%Q
              (WriteToBuf.initial (WriteToBuf.silent 8 1) (WriteToBuf.silent 8 1)) in
  WriteToBuf.deref (WriteToBuf.writeAudioChunk [4; 5]%Q (WriteToBuf.clearBuffer st))
                   WriteToBuf.UDPbuf2
  = WriteToBuf.pokeChunk (WriteToBuf.silent 8 1) 3 [4; 5]%Q.
Proof.
  intros st.
  assert (Hne : WriteToBuf.activeBuffer st <> WriteToBuf.inactiveBuffer st) by discriminate.
  assert (H0 : WriteToBuf.framecount (WriteToBuf.deref st (WriteToBuf.inactiveBuffer st)) <> 0)
    by discriminate.
  assert (Hn : Z.of_nat (length [4; 5]%Q)
               <= WriteToBuf.framecount (WriteToBuf.deref st (WriteToBuf.inactiveBuffer st)))
    by (vm_compute; discriminate).
  exact (proj2 (proj2 (proj2 (switch_keeps_the_cursor [4; 5]%Q st Hne H0 Hn)))).
Defined.

(** X21. Chunks written between a switch and its deferred clear stay in
    the newly active buffer when the clear fires, but the clear sets the
    cursor to 0 under them: the next chunk is written from frame 0 again,
    whatever has been written since the switch.  The buffer that was
    active before the switch is silent afterwards. *)
Theorem deferred_clear_rewinds_the_new_stream
    (chunks : list (list Q)) (st : WriteToBuf.state) :
  let a := WriteToBuf.activeBuffer st in
  let i := WriteToBuf.inactiveBuffer st in
  let st2 := WriteToBuf.writeAll chunks (WriteToBuf.clearBuffer st) in
  let st3 := WriteToBuf.elapse (WriteToBuf.switchDelay st) st2 in
  a <> i ->
  WriteToBuf.clipStart1 st3 = 0
  /\ WriteToBuf.activeBuffer st3 = i
  /\ WriteToBuf.deref st3 i = WriteToBuf.deref st2 i
  /\ (forall c f, WriteToBuf.peek (WriteToBuf.deref st3 a) c f = 0%Q).
Proof.
  intros a i st2 st3 Hne.
  destruct (clearBuffer_after_fade st) as (Ca & Ci & _ & Cn & Cd & Ct & _).
  destruct (applyFadeOut_frame st) as (Ha & Hi & _ & Hd & _ & Hn & _).
  destruct (writeAll_frame chunks (WriteToBuf.clearBuffer st))
    as (Wa & Wi & Wt & Wn & _).
  fold st2 in Wa, Wi, Wt, Wn.
  assert (Hact : WriteToBuf.activeBuffer st2 = i) by (by rewrite Wa, Ca, Hi).
  assert (Hina : WriteToBuf.inactiveBuffer st2 = a) by (by rewrite Wi, Ci, Ha).
  destruct (elapse_spec (WriteToBuf.switchDelay st) st2) as (_ & _ & Ea & _ & Hfire).
  fold st3 in Ea, Hfire.
  assert (Hdue : filter (fun d => d <= WriteToBuf.now st2 + WriteToBuf.switchDelay st)
                        (WriteToBuf.tasks st2) <> []).
  { rewrite Wt, Wn, Ct, Cn, Hn, Hd, filter_app.
    rewrite (filter_singleton_True _ _ []) by lia.
    by destruct (filter _ (WriteToBuf.tasks (WriteToBuf.applyFadeOut st))). }
  destruct (Hfire Hdue) as [Hc Hs]. rewrite Hina in Hs.
  repeat split; try done.
  - by rewrite Ea.
  - apply elapse_other. rewrite Hina. congruence.
Qed.

Lemma deferred_clear_rewinds_the_new_stream_witness :
  let st := WriteToBuf.writeAudioChunk [1; 2; 3]%Q
              (WriteToBuf.initial (WriteToBuf.silent 8 1) (WriteToBuf.silent 8 1)) in
  let st2 := WriteToBuf.writeAll [[4; 5]; [6]]%Q (WriteToBuf.clearBuffer st) in
  WriteToBuf.clipStart1 st2 = 6
  /\ WriteToBuf.clipStart1 (WriteToBuf.elapse 20 st2) = 0.
Proof.
  intros st st2. split; [reflexivity|].
  assert (Hne : WriteToBuf.activeBuffer st <> WriteToBuf.inactiveBuffer st) by discriminate.
  exact (proj1 (deferred_clear_rewinds_the_new_stream [[4; 5]; [6]]%Q st Hne)).
Defined.

(** ** The fade-out on a buffer of any length *)

Section FadeAnyLength.

Import WriteToBuf BufferRuns.






End FadeAnyLength.


(** ** The transcript side of [sRtin.js] *)

Import Stdlib.Strings.String.StringSyntax.

Section Transcripts.

Import Recognition.

Variable wordsToNumbers : text -> option text.

Lemma starts_with_elem (pat : text) :
  forall s, starts_with pat s = true -> forall c, c ∈ pat -> c ∈ s.
Proof.
  induction pat as [|p pat IH]; intros s H c Hc.
  - by apply elem_of_nil in Hc.
  - destruct s as [|c' s]; cbn [starts_with] in H; [done|].
    apply andb_true_iff in H as [Hp Hs]. apply N.eqb_eq in Hp. subst c'.
    apply elem_of_cons in Hc as [->|Hc]; [left|right]. by apply IH.
Qed.

Lemma contains_elem (pat : text) :
  forall s, contains pat s = true -> forall c, c ∈ pat -> c ∈ s.
Proof.
  induction s as [|c' s IH]; intros H c Hc; cbn [contains] in H;
    apply orb_true_iff in H as [H|H]; try done.
  - by apply (starts_with_elem pat).
  - by apply (starts_with_elem pat).
  - right. by apply IH.
Qed.

Lemma fold_case_backslash (c : N) : fold_case c = 92%N -> c = 92%N.
Proof.
  unfold fold_case.
  destruct (N.leb_spec 65 c), (N.leb_spec c 90); cbn [andb]; lia.
Qed.

(** No text without a backslash is taken for a command. *)
Lemma is_command_backslash (s : text) : is_command s = true -> 92%N ∈ s.
Proof.
  unfold is_command. intros H.
  apply existsb_exists in H as (word & _ & H).
  assert (Hin : 92%N ∈ map fold_case s).
  { apply (contains_elem _ _ H). apply elem_of_app. left. left. }
  apply list_elem_of_fmap in Hin as (c & Hc & Hs).
  symmetry in Hc. apply fold_case_backslash in Hc. by subst c.
Qed.

Lemma specialFormatting_plain (s : text) :
  92%N ∉ s -> specialFormatting wordsToNumbers s = wordsToNumbers s.
Proof.
  intros Hs. unfold specialFormatting.
  destruct (starts_with (lit "minus\b") s) eqn:Hminus.
  { exfalso. apply Hs. apply (starts_with_elem _ _ Hminus).
    do 5 right. left. }
  destruct (contains (lit "\bpercent\b") s) eqn:Hpercent.
  { exfalso. apply Hs. apply (contains_elem _ _ Hpercent). left. }
  by destruct (wordsToNumbers s).
Qed.

Lemma to_string_plain (s : text) :
  92%N ∉ s -> (forall t, wordsToNumbers s = Some t -> 92%N ∉ t) ->
  is_command (to_string (specialFormatting wordsToNumbers s)) = false.
Proof.
  intros Hs Hw. rewrite specialFormatting_plain by done.
  destruct (is_command _) eqn:Hc; [exfalso|done].
  apply is_command_backslash in Hc.
  destruct (wordsToNumbers s) as [t|] eqn:Ht; cbn [to_string] in Hc.
  - by apply (Hw t).
  - revert Hc. change (92%N ∉ lit "undefined").
    apply (bool_decide_unpack _). vm_compute. reflexivity.
Qed.

Lemma truthy_true (t : text) : t <> [] -> truthy t = true.
Proof. by destruct t. Qed.

Lemma partial_step (p : text) (st : state) :
  92%N ∉ p -> (forall t, wordsToNumbers p = Some t -> 92%N ∉ t) ->
  processAudioWithVosk wordsToNumbers (Partial p) st
  = if decide (p = []) then st
    else mkState p (sent st ++ [PartialResult (wordsToNumbers p)]).
Proof.
  intros Hp Hw. cbn [processAudioWithVosk].
  destruct (decide (p = [])) as [->|Hne]; [done|].
  rewrite truthy_true, to_string_plain by done.
  by rewrite specialFormatting_plain.
Qed.

Lemma outlet_emit (es : list emitted) (st : state) :
  outlet (emit es st) = outlet st ++ outlet (mkState [] es).
Proof. unfold outlet. cbn [emit sent]. apply omap_app. Qed.

Lemma partials_run (partials : list text) :
  forall st,
    Forall (fun p => (92%N ∉ p) /\ (forall t, wordsToNumbers p = Some t -> 92%N ∉ t)) partials ->
    let st' := processAll wordsToNumbers (map Partial partials) st in
    outlet st' = outlet st
    /\ lastPartialResult st'
       = default (lastPartialResult st) (last (List.filter truthy partials))
    /\ sent st'
       = sent st ++ map (fun p => PartialResult (wordsToNumbers p))
                        (List.filter truthy partials).
Proof.
  induction partials as [|p partials IH]; intros st Hall; cbv zeta.
  - cbn [map processAll foldl List.filter last default]. by rewrite app_nil_r.
  - apply Forall_cons in Hall as [[Hp Hw] Hall].
    change (processAll wordsToNumbers (map Partial (p :: partials)) st)
      with (processAll wordsToNumbers (map Partial partials)
              (processAudioWithVosk wordsToNumbers (Partial p) st)).
    destruct (IH (processAudioWithVosk wordsToNumbers (Partial p) st) Hall)
      as (Ho & Hl & Hs).
    rewrite Ho, Hl, Hs, partial_step by done. cbn [List.filter].
    destruct (decide (p = [])) as [->|Hne]; [done|].
    rewrite truthy_true by done.
    cbn [lastPartialResult sent map]. repeat split.
    + unfold outlet. cbn [sent]. rewrite omap_app. cbn. by rewrite app_nil_r.
    + rewrite last_cons. by destruct (last _).
    + by rewrite <- app_assoc.
Qed.

End Transcripts.

(** X23. On a text without a backslash, [specialFormatting] returns what
    [wordsToNumbers] returns for the unchanged text: neither a leading
    "minus" nor the word "percent" is recognised or removed, and no sign
    and no percent sign is added, because both patterns ask for a
    backslash followed by the letter b around the word. *)
Theorem plain_text_is_not_reformatted
    (wordsToNumbers : Recognition.text -> option Recognition.text)
    (inputString : Recognition.text) :
  92%N ∉ inputString ->
  Recognition.specialFormatting wordsToNumbers inputString = wordsToNumbers inputString.
Proof. apply specialFormatting_plain. Qed.

Lemma plain_text_is_not_reformatted_witness :
  Recognition.specialFormatting Some (Recognition.lit "minus twenty percent")
  = Some (Recognition.lit "minus twenty percent").
Proof.
  apply (plain_text_is_not_reformatted Some).
  apply (bool_decide_unpack _). vm_compute. reflexivity.
Defined.

(** X24. Partial results whose text and formatted text hold no backslash
    never reach the outlet, whatever words they contain: each non-empty
    one is posted and kept in [lastPartialResult], replacing the one kept
    before, and an empty one is ignored.  The command words play, stop,
    pause, resume, continue and both make no difference, since the
    pattern that looks for them asks for a backslash and the letter b on
    both sides. *)
Theorem partial_results_are_held_back
    (wordsToNumbers : Recognition.text -> option Recognition.text)
    (partials : list Recognition.text) (st : Recognition.state) :
  Forall (fun p => (92%N ∉ p) /\ (forall t, wordsToNumbers p = Some t -> 92%N ∉ t)) partials ->
  let st' := Recognition.processAll wordsToNumbers (map Recognition.Partial partials) st in
  Recognition.outlet st' = Recognition.outlet st
  /\ Recognition.lastPartialResult st'
     = default (Recognition.lastPartialResult st)
               (last (List.filter Recognition.truthy partials))
  /\ Recognition.sent st'
     = Recognition.sent st
       ++ map (fun p => Recognition.PartialResult (wordsToNumbers p))
              (List.filter Recognition.truthy partials).
Proof. apply partials_run. Qed.

Lemma partial_results_are_held_back_witness :
  let st' := Recognition.processAll Some
               (map Recognition.Partial [Recognition.lit "play"; Recognition.lit "play the song"])
               Recognition.initial in
  Recognition.outlet st' = []
  /\ Recognition.lastPartialResult st' = Recognition.lit "play the song".
Proof.
  intros st'.
  assert (Hall : Forall (fun p => (92%N ∉ p) /\ (forall t, Some p = Some t -> 92%N ∉ t))
                        [Recognition.lit "play"; Recognition.lit "play the song"]).
  { repeat constructor;
      try (intros t [= <-]); apply (bool_decide_unpack _); vm_compute; reflexivity. }
  pose proof (partial_results_are_held_back Some _ Recognition.initial Hall)
    as (Ho & Hl & _).
  split; [exact Ho|exact Hl].
Defined.

(** X25. A partial result followed by a final result, both non-empty and
    free of backslashes: the outlet receives the formatted final text
    first and the formatted partial text, which is the older of the two,
    after it, and [lastPartialResult] is empty again. *)
Theorem final_result_is_followed_by_held_partial
    (wordsToNumbers : Recognition.text -> option Recognition.text)
    (partial text : Recognition.text) (st : Recognition.state) :
  partial <> [] -> text <> [] ->
  92%N ∉ partial -> 92%N ∉ text ->
  (forall t, wordsToNumbers partial = Some t -> 92%N ∉ t) ->
  let st' := Recognition.processAll wordsToNumbers
               [Recognition.Partial partial; Recognition.Final text] st in
  Recognition.outlet st'
  = Recognition.outlet st ++ [wordsToNumbers text; wordsToNumbers partial]
  /\ Recognition.lastPartialResult st' = [].
Proof.
  intros Hp Ht Hbp Hbt Hw st'. subst st'.
  cbn [Recognition.processAll foldl].
  rewrite partial_step by done.
  destruct (decide (partial = [])) as [?|_]; [done|].
  cbn [Recognition.processAudioWithVosk].
  rewrite (truthy_true text) by done.
  cbn [Recognition.emit Recognition.lastPartialResult Recognition.sent].
  rewrite (truthy_true partial) by done.
  rewrite !specialFormatting_plain by done.
  split; [|done].
  unfold Recognition.outlet.
  cbn [Recognition.set_lastPartialResult Recognition.emit Recognition.sent].
  rewrite <- !app_assoc, omap_app. done.
Qed.

Lemma final_result_is_followed_by_held_partial_witness :
  Recognition.outlet
    (Recognition.processAll Some
       [Recognition.Partial (Recognition.lit "stop the");
        Recognition.Final (Recognition.lit "stop the music")] Recognition.initial)
  = [Some (Recognition.lit "stop the music"); Some (Recognition.lit "stop the")].
Proof.
  refine (proj1 (final_result_is_followed_by_held_partial Some
                   (Recognition.lit "stop the") (Recognition.lit "stop the music")
                   Recognition.initial _ _ _ _ _)).
  - vm_compute. discriminate.
  - vm_compute. discriminate.
  - apply (bool_decide_unpack _). vm_compute. reflexivity.
  - apply (bool_decide_unpack _). vm_compute. reflexivity.
  - intros t [= <-]. apply (bool_decide_unpack _). vm_compute. reflexivity.
Defined.

(** ** The two decoders on the same payload *)

Section TwoDecoders.

Import UDPdown.

Lemma accepted_10_below_1e7 (v : JS.number) :
  Runs.accepted (JS.of_Z 10) v = true -> Runs.accepted lit_1e7 v = true.
Proof.
  unfold Runs.accepted.
  change (JS.of_Z 10) with (S754_finite false 5629499534213120 (-49)).
  change lit_1e7 with (S754_finite false 5368709120000000 (-29)).
  destruct v as [z|z| |z m e]; try done.
  unfold JS.lt, JS.Math_abs, SFltb, SFabs, SFcompare.
  destruct (Z.compare_spec e (-49)) as [->|Hlt|Hgt]; intros Hacc;
    try discriminate Hacc.
  - reflexivity.
  - destruct (Z.compare_spec e (-29)) as [He|He|He]; [lia|reflexivity|lia].
Qed.

Lemma filter_narrower {A : Type} (P Q : A -> bool) (l : list A) :
  (forall x, P x = true -> Q x = true) ->
  List.filter P (List.filter Q l) = List.filter P l.
Proof.
  intros HPQ. induction l as [|x l IH]; [done|]. cbn [List.filter].
  destruct (Q x) eqn:HQ; cbn [List.filter]; rewrite IH; [done|].
  destruct (P x) eqn:HP; [|done]. apply HPQ in HP. congruence.
Qed.

End TwoDecoders.

(** X26. Sent the same payload, [sRtin.js] decodes a sub-sequence of what
    [UDPdown.js] decodes: exactly those values of the [UDPdown.js] chunk
    whose magnitude is below 10, in the same order.  The two decoders
    differ in the bound and in nothing else. *)
Theorem sRtin_chunk_is_part_of_UDPdown_chunk (data : list byte) :
  Runs.chunkOf Pipeline.SRtinJs data
  = List.filter (Runs.accepted (JS.of_Z 10)) (Runs.chunkOf Pipeline.UDPdownJs data).
Proof.
  rewrite !chunkOf_filter. cbn [Pipeline.limit].
  symmetry. apply filter_narrower, accepted_10_below_1e7.
Qed.
